(** * Intrusive doubly linked list (common_util/Intrusive_list.hpp)

    A shallow embedding of [Intrusive_list_node] and [Intrusive_list]:
    node objects live in a heap indexed by their address, every member
    function is a computation in a state-and-fault monad over that heap,
    and the two [while] loops carry an explicit iteration budget. *)

From stdpp Require Import base numbers option list gmap.

Open Scope Z_scope.
#[local] Set Warnings "-clear-no-such-hyp".

(** ** Pointers, nodes and the heap *)

(** A pointer is the address it holds; [nullptr] is address zero. *)
Abbreviation ptr := Z (only parsing).

Definition nullptr : ptr := 0.

(** Pointers and [size_t] are machine words of the same width. *)
Definition word_bits : Z := 64.

Definition size_t_modulus : Z := 2 ^ word_bits.

(** [class Intrusive_list_node]: the two protected link fields. *)
Record Intrusive_list_node : Type := Node { m_prev : ptr; m_next : ptr }.

(** The heap holds the node objects that currently exist, by address. An
    [Intrusive_list] object is its [m_sentinel] member, so a list is
    identified with the address of its sentinel. *)
Abbreviation heap := (gmap Z Intrusive_list_node) (only parsing).

(** ** The state-and-fault monad

    [None] stands for undefined behaviour (a null or dangling dereference)
    or for a loop that used up its budget. *)
Definition M (A : Type) : Type := heap → option (A * heap).

Definition ret {A} (a : A) : M A := λ h, Some (a, h).

Definition bind {A B} (m : M A) (k : A → M B) : M B :=
  λ h, match m h with
       | Some (a, h') => k a h'
       | None => None
       end.

Definition fault {A} : M A := λ _, None.

Notation "'let*' x := m 'in' k" := (bind m (λ x, k))
  (at level 10, x binder, m at level 100, k at level 200).
Notation "m ;; k" := (bind m (λ _, k))
  (at level 100, k at level 200, right associativity).

(** [p->...]: reading through a pointer needs a live, non-null object. *)
Definition deref (p : ptr) : M Intrusive_list_node :=
  λ h, if decide (p = nullptr) then None
       else match h !! p with
            | Some nd => Some (nd, h)
            | None => None
            end.

(** [p->m_prev] and [p->m_next] as rvalues. *)
Definition load_prev (p : ptr) : M ptr := let* nd := deref p in ret (m_prev nd).
Definition load_next (p : ptr) : M ptr := let* nd := deref p in ret (m_next nd).

(** The in-place field updates behind [p->m_prev = v] and [p->m_next = v]. *)
Definition set_prev (p v : ptr) (h : heap) : heap :=
  alter (λ nd, Node v (m_next nd)) p h.
Definition set_next (p v : ptr) (h : heap) : heap :=
  alter (λ nd, Node (m_prev nd) v) p h.

(** [p->m_prev = v;] and [p->m_next = v;]. *)
Definition store_prev (p v : ptr) : M unit :=
  deref p ;; λ h, Some (tt, set_prev p v h).
Definition store_next (p v : ptr) : M unit :=
  deref p ;; λ h, Some (tt, set_next p v h).

(** ** Intrusive_list_node *)

(** [Intrusive_list_node()] run on the storage at [p]. *)
Definition Intrusive_list_node_ctor (p : ptr) : M unit :=
  λ h, if decide (p = nullptr) then None
       else Some (tt, <[p := Node nullptr nullptr]> h).

(** [Intrusive_list_node(Intrusive_list_node&& rhs)] run on the storage at
    [p]: the new node takes both pointers of [rhs], and [rhs] is nulled. *)
Definition Intrusive_list_node_move_ctor (p rhs : ptr) : M unit :=
  if decide (p = nullptr) then fault else
  let* rp := load_prev rhs in
  let* rn := load_next rhs in
  (λ h, Some (tt, <[p := Node rp rn]> h)) ;;
  store_prev rhs nullptr ;;
  store_next rhs nullptr.

(** [prev()] and [next()]. *)
Definition prev (p : ptr) : M ptr := load_prev p.
Definition next (p : ptr) : M ptr := load_next p.

(** ** Intrusive_list

    Every member function takes [s], the address of [m_sentinel]. *)

(** [Intrusive_list()]: the member [m_sentinel] is default-constructed,
    then the body links it to itself. *)
Definition Intrusive_list_ctor (s : ptr) : M unit :=
  Intrusive_list_node_ctor s ;;
  store_prev s s ;;
  store_next s s.

(** [Intrusive_list(Intrusive_list&& rhs)], building the list at [s]. *)
Definition Intrusive_list_move_ctor (s rhs : ptr) : M unit :=
  Intrusive_list_node_ctor s ;;
  let* rp := load_prev rhs in
  store_prev s rp ;;
  let* rn := load_next rhs in
  store_next s rn ;;
  store_prev rhs rhs ;;
  store_next rhs rhs.

(** Iterators wrap a raw node pointer. *)
Definition begin (s : ptr) : M ptr := load_next s.
Definition end_ (s : ptr) : M ptr := ret s.
Definition iter_incr (it : ptr) : M ptr := next it.
Definition iter_decr (it : ptr) : M ptr := prev it.
Definition iter_neq (a b : ptr) : bool := bool_decide (a ≠ b).

Definition get_sentinel (s : ptr) : M ptr := ret s.

Definition empty (s : ptr) : M bool :=
  let* n := load_next s in ret (bool_decide (n = s)).

(** [front<T>()] and [back<T>()]; the cast does not change the address. *)
Definition front (s : ptr) : M ptr :=
  let* e := empty s in
  if e then ret nullptr else load_next s.

Definition back (s : ptr) : M ptr :=
  let* e := empty s in
  if e then ret nullptr else load_prev s.

(** The loop of [size()]; [count++] wraps like a [size_t]. *)
Fixpoint size_loop (fuel : nat) (s n : ptr) (count : Z) {struct fuel} : M Z :=
  if decide (n = s) then ret count
  else match fuel with
       | O => fault
       | S fuel' =>
           let count' := (count + 1) `mod` size_t_modulus in
           let* n' := load_next n in
           size_loop fuel' s n' count'
       end.

Definition size (fuel : nat) (s : ptr) : M Z :=
  let* n := load_next s in
  size_loop fuel s n 0.

Definition push_front (s node : ptr) : M unit :=
  let* f := load_next s in
  store_prev f node ;;
  let* f' := load_next s in
  store_next node f' ;;
  store_prev node s ;;
  store_next s node.

Definition push_back (s node : ptr) : M unit :=
  let* b := load_prev s in
  store_next b node ;;
  let* b' := load_prev s in
  store_prev node b' ;;
  store_next node s ;;
  store_prev s node.

Definition pop_front (s : ptr) : M unit :=
  let* f := load_next s in
  let* fn := load_next f in
  store_next s fn ;;
  let* f' := load_next s in
  store_prev f' s.

Definition pop_back (s : ptr) : M unit :=
  let* b := load_prev s in
  let* bp := load_prev b in
  store_prev s bp ;;
  let* b' := load_prev s in
  store_next b' s.

Definition is_node_adj (a b : ptr) : M bool :=
  let* an := load_next a in
  if bool_decide (an = b) then ret true else
  let* ap := load_prev a in
  if bool_decide (ap = b) then ret true else
  let* bn := load_next b in
  if bool_decide (bn = a) then ret true else
  let* bp := load_prev b in
  ret (bool_decide (bp = a)).

Definition is_a_left_b (a b : ptr) : M bool :=
  let* an := load_next a in ret (bool_decide (an = b)).

Definition is_a_right_b (a b : ptr) : M bool :=
  let* ap := load_prev a in ret (bool_decide (ap = b)).

Definition unlink (s node : ptr) : M ptr :=
  let* n_prev := load_prev node in
  let* n_next := load_next node in
  store_next n_prev n_next ;;
  store_prev n_next n_prev ;;
  store_next node s ;;
  store_prev node s ;;
  ret n_prev.

(** The scan of [erase]. *)
Fixpoint erase_loop (fuel : nat) (s node curr : ptr) {struct fuel} : M bool :=
  if decide (curr = s) then ret false
  else match fuel with
       | O => fault
       | S fuel' =>
           if decide (curr = node) then unlink s curr ;; ret true
           else let* c := load_next curr in erase_loop fuel' s node c
       end.

Definition erase (fuel : nat) (s node : ptr) : M bool :=
  let* e := empty s in
  if e then ret false
  else let* curr := load_next s in erase_loop fuel s node curr.

Definition swap_adjacent (lhs rhs : ptr) : M unit :=
  let* lhs_prev := load_prev lhs in
  let* rhs_next := load_next rhs in
  store_prev lhs rhs ;;
  store_next lhs rhs_next ;;
  store_prev rhs lhs_prev ;;
  store_next rhs lhs ;;
  store_next lhs_prev rhs ;;
  store_prev rhs_next lhs.

Definition swap (a b : ptr) : M unit :=
  if decide (a = b) then ret tt else
  let* l := is_a_left_b a b in
  if l then swap_adjacent a b else
  let* r := is_a_right_b a b in
  if r then swap_adjacent b a else
  let* a_prev := load_prev a in
  let* a_next := load_next a in
  let* b_prev := load_prev b in
  let* b_next := load_next b in
  store_next a_prev b ;;
  store_prev a_next b ;;
  store_next b_prev a ;;
  store_prev b_next a ;;
  store_prev b a_prev ;;
  store_next b a_next ;;
  store_prev a b_prev ;;
  store_next a b_next.

Definition insert (prev0 node : ptr) : M unit :=
  let* pn := load_next prev0 in
  store_next node pn ;;
  store_next prev0 node ;;
  store_prev node prev0.

(** The traversal [for (it = begin(); it != end(); ++it)], collecting the
    address of every node visited. *)
Fixpoint iter_loop (fuel : nat) (last it : ptr) {struct fuel} : M (list Z) :=
  if iter_neq it last then
    match fuel with
    | O => fault
    | S fuel' =>
        let* it' := iter_incr it in
        let* rest := iter_loop fuel' last it' in
        ret (it :: rest)
    end
  else ret [].

Definition to_list (fuel : nat) (s : ptr) : M (list Z) :=
  let* b := begin s in
  let* e := end_ s in
  iter_loop fuel e b.

(** The backward traversal [for (it = end(); it != begin(); ) { --it; ... }],
    collecting the address of every node visited. *)
Fixpoint riter_loop (fuel : nat) (s it : ptr) {struct fuel} : M (list Z) :=
  let* b := begin s in
  if iter_neq it b then
    match fuel with
    | O => fault
    | S fuel' =>
        let* it' := iter_decr it in
        let* rest := riter_loop fuel' s it' in
        ret (it' :: rest)
    end
  else ret [].

Definition to_list_rev (fuel : nat) (s : ptr) : M (list Z) :=
  let* e := end_ s in
  riter_loop fuel s e.

(** ** Field views of the heap *)

Definition prevf (h : heap) (p : ptr) : option Z := m_prev <$> h !! p.
Definition nextf (h : heap) (p : ptr) : option Z := m_next <$> h !! p.

(** Every live object sits at a non-null address that fits a pointer. *)
Definition wf_heap (h : heap) : Prop :=
  ∀ p, is_Some (h !! p) → 0 < p < size_t_modulus.

(** ** Rings

    [link h x y]: [y] follows [x] and [x] precedes [y]. [seg h a l b]: the
    nodes [a], [l], [b] are linked in this order. [ring h s l]: the
    sentinel [s] and the nodes [l] form one closed doubly linked ring. *)

Definition link (h : heap) (x y : ptr) : Prop :=
  nextf h x = Some y ∧ prevf h y = Some x.

Fixpoint seg (h : heap) (a : ptr) (l : list Z) (b : ptr) : Prop :=
  match l with
  | [] => link h a b
  | x :: l' => link h a x ∧ seg h x l' b
  end.

Definition ring (h : heap) (s : ptr) (l : list Z) : Prop :=
  wf_heap h ∧ NoDup (s :: l) ∧ seg h s l s.

(** [fseg h a l b]: the nodes [a], [l], [b] follow each other through
    [m_next]; nothing is said of [m_prev]. *)
Fixpoint fseg (h : heap) (a : ptr) (l : list Z) (b : ptr) : Prop :=
  match l with
  | [] => nextf h a = Some b
  | x :: l' => nextf h a = Some x ∧ fseg h x l' b
  end.

(** ** Auxiliary notions used by the statements *)

(** [n = n->next()] repeated [k] times. *)
Fixpoint follow_next (k : nat) (n : ptr) : M ptr :=
  match k with
  | O => ret n
  | S k' => let* n' := next n in follow_next k' n'
  end.

(** The exchange of two addresses. *)
Definition transp (a b u : Z) : Z :=
  if decide (u = a) then b else if decide (u = b) then a else u.

(** ** Call sequences *)

(** One call of a mutating member function. *)
Inductive op : Type :=
  | PushFront (x : ptr)
  | PushBack (x : ptr)
  | PopFront
  | PopBack
  | Erase (x : ptr)
  | Swap (a b : ptr).

Definition exec_op (fuel : nat) (s : ptr) (o : op) : M unit :=
  match o with
  | PushFront x => push_front s x
  | PushBack x => push_back s x
  | PopFront => pop_front s
  | PopBack => pop_back s
  | Erase x => erase fuel s x ;; ret tt
  | Swap a b => swap a b
  end.

Fixpoint exec_ops (fuel : nat) (s : ptr) (ops : list op) : M unit :=
  match ops with
  | [] => ret tt
  | o :: ops' => exec_op fuel s o ;; exec_ops fuel s ops'
  end.

(** The member nodes, in order, after a call made on the members [l]. *)
Definition model_op (o : op) (l : list Z) : list Z :=
  match o with
  | PushFront x => x :: l
  | PushBack x => l ++ [x]
  | PopFront => tail l
  | PopBack => removelast l
  | Erase x => filter (λ y, y ≠ x) l
  | Swap a b => transp a b <$> l
  end.

Definition model_ops (ops : list op) (l : list Z) : list Z :=
  foldl (λ l' o, model_op o l') l ops.

(** The stated precondition of a call made on the list at [s] with
    members [l]; [h] tells which node objects exist. *)
Definition op_pre (h : heap) (s : ptr) (l : list Z) (o : op) : Prop :=
  match o with
  | PushFront x | PushBack x => (x ∉ s :: l) ∧ is_Some (h !! x)
  | PopFront | PopBack => l ≠ []
  | Erase _ => True
  | Swap a b => a ∈ l ∧ b ∈ l
  end.

Fixpoint ops_pre (h : heap) (s : ptr) (l : list Z) (ops : list op) : Prop :=
  match ops with
  | [] => True
  | o :: ops' => op_pre h s l o ∧ ops_pre h s (model_op o l) ops'
  end.

(** The node a call links, if any, is not among [m]. *)
Definition op_node_not_in (o : op) (m : list Z) : Prop :=
  match o with
  | PushFront x | PushBack x => x ∉ m
  | _ => True
  end.

(** The ring invariant read off the heap through the public interface:
    [size()] and the traversal return, and every node [n] met on the way
    (and the sentinel) has [n->next()->prev() == n],
    [n->prev()->next() == n], and comes back to itself after [size()+1]
    steps of [next()] and not earlier. *)
Definition ring_ok (fuel : nat) (s : ptr) (h : heap) : Prop :=
  ∃ (k : Z) (l : list Z),
    size fuel s h = Some (k, h) ∧
    to_list fuel s h = Some (l, h) ∧
    ∀ n, n ∈ s :: l →
      (let* x := next n in prev x) h = Some (n, h) ∧
      (let* x := prev n in next x) h = Some (n, h) ∧
      follow_next (Z.to_nat k + 1) n h = Some (n, h) ∧
      ∀ j, (0 < j < Z.to_nat k + 1)%nat → follow_next j n h ≠ Some (n, h).

(** An unlinked node in the sense of pointing at itself, or at nothing. *)
Definition self_or_null (h : heap) (x : ptr) : Prop :=
  (prevf h x = Some x ∧ nextf h x = Some x) ∨
  (prevf h x = Some nullptr ∧ nextf h x = Some nullptr).

(** ** Concrete heaps *)

(** Three node objects [A], [B], [C], not linked, and room for a list. *)
Definition nodeA : Z := 2.
Definition nodeB : Z := 3.
Definition nodeC : Z := 4.
Definition listL : Z := 1.

(** Where a second list object is built, and a spare node. *)
Definition listM : Z := 6.
Definition nodeD : Z := 5.

Definition heap_ABC : heap :=
  {[ nodeA := Node nullptr nullptr;
     nodeB := Node nullptr nullptr;
     nodeC := Node nullptr nullptr ]}.

(** The scenario of the specification, with what it observes. *)
Definition scenario :
    M (list Z * Z * list Z * (bool * list Z * Z) * (list Z * Z)) :=
  Intrusive_list_ctor listL ;;
  push_back listL nodeA ;;
  push_back listL nodeB ;;
  push_back listL nodeC ;;
  let* order1 := to_list 3 listL in
  let* size1 := size 3 listL in
  swap nodeA nodeC ;;
  let* order2 := to_list 3 listL in
  let* erased := erase 3 listL nodeB in
  let* order3 := to_list 3 listL in
  let* size3 := size 3 listL in
  pop_front listL ;;
  let* order4 := to_list 3 listL in
  let* size4 := size 3 listL in
  ret (order1, size1, order2, (erased, order3, size3), (order4, size4)).

(** An empty list at [listL]. *)
Definition heap_empty : heap :=
  {[ listL := Node listL listL ]}.

(** The list [A] at [listL]. *)
Definition heap_one : heap :=
  {[ listL := Node nodeA nodeA; nodeA := Node listL listL ]}.

(** An empty list at [listL] and the spare node, not linked. *)
Definition heap_empty_D : heap :=
  {[ listL := Node listL listL; nodeD := Node nullptr nullptr ]}.

(** The list [A, B, C] at [listL] and the spare node, not linked. *)
Definition heap_three : heap :=
  {[ listL := Node nodeC nodeA; nodeA := Node listL nodeB;
     nodeB := Node nodeA nodeC; nodeC := Node nodeB listL;
     nodeD := Node nullptr nullptr ]}.

(** [heap_one] after the list at [listL] was moved to [listM]. *)
Definition heap_moved : heap :=
  {[ listL := Node listL listL; nodeA := Node listL listL;
     listM := Node nodeA nodeA ]}.

(** [heap_empty] after the list at [listL] was moved to [listM]. *)
Definition heap_moved_empty : heap :=
  {[ listL := Node listL listL; listM := Node listL listL ]}.

(** The list [A, B] at [listL], the list [C] at [listM] and the spare
    node, not linked. *)
Definition heap_two_lists : heap :=
  {[ listL := Node nodeB nodeA; nodeA := Node listL nodeB;
     nodeB := Node nodeA listL;
     listM := Node nodeC nodeC; nodeC := Node listM listM;
     nodeD := Node nullptr nullptr ]}.

(** Where a node object is move-constructed. *)
Definition nodeE : Z := 7.

(** [heap_ABC] once [Intrusive_list()] has run at [listL]. *)
Definition heap_ABC_L : heap := <[ listL := Node listL listL ]> heap_ABC.

(** A sequence of calls that meets every precondition from the empty list. *)
Definition calls : list op :=
  [PushBack nodeA; PushFront nodeB; PushBack nodeC; Swap nodeA nodeC;
   Erase nodeB; PopFront; PopBack; PushFront nodeB].

(** What C8 describes, at one state: the call faults, or what it leaves is
    not a valid empty ring. *)
Definition corrupts_empty_ring (call : Z → M unit) (s : Z) (h : heap) : Prop :=
  match call s h with
  | Some (_, h') => ¬ ring h' s []
  | None => True
  end.

(** * Properties *)

(** ** Field views: basic facts *)

Section fields.
Implicit Types (h : heap) (p u v : Z).

Lemma nextf_is_Some h p : is_Some (nextf h p) ↔ is_Some (h !! p).
Proof. unfold nextf. by rewrite fmap_is_Some. Qed.

Lemma prevf_is_Some h p : is_Some (prevf h p) ↔ is_Some (h !! p).
Proof. unfold prevf. by rewrite fmap_is_Some. Qed.

Lemma nextf_alloc h p v : nextf h p = Some v → is_Some (h !! p).
Proof. intros E. apply nextf_is_Some. by rewrite E. Qed.

Lemma prevf_alloc h p v : prevf h p = Some v → is_Some (h !! p).
Proof. intros E. apply prevf_is_Some. by rewrite E. Qed.

Lemma fields_eq h h' u :
  prevf h' u = prevf h u → nextf h' u = nextf h u → h' !! u = h !! u.
Proof.
  unfold prevf, nextf.
  destruct (h' !! u) as [[a b]|], (h !! u) as [[c d]|]; simpl; congruence.
Qed.

Lemma alloc_set_prev h p v u :
  is_Some (set_prev p v h !! u) ↔ is_Some (h !! u).
Proof.
  unfold set_prev. destruct (decide (p = u)) as [->|].
  - rewrite lookup_alter_eq. by rewrite fmap_is_Some.
  - by rewrite lookup_alter_ne.
Qed.

Lemma alloc_set_next h p v u :
  is_Some (set_next p v h !! u) ↔ is_Some (h !! u).
Proof.
  unfold set_next. destruct (decide (p = u)) as [->|].
  - rewrite lookup_alter_eq. by rewrite fmap_is_Some.
  - by rewrite lookup_alter_ne.
Qed.

Lemma nextf_set_prev h p v u : nextf (set_prev p v h) u = nextf h u.
Proof.
  unfold nextf, set_prev. destruct (decide (p = u)) as [->|].
  - rewrite lookup_alter_eq. by destruct (h !! u).
  - by rewrite lookup_alter_ne.
Qed.

Lemma prevf_set_next h p v u : prevf (set_next p v h) u = prevf h u.
Proof.
  unfold prevf, set_next. destruct (decide (p = u)) as [->|].
  - rewrite lookup_alter_eq. by destruct (h !! u).
  - by rewrite lookup_alter_ne.
Qed.

Lemma nextf_set_next h p v u :
  nextf (set_next p v h) u =
  if decide (u = p) then (λ _, v) <$> nextf h u else nextf h u.
Proof.
  unfold nextf, set_next. case_decide as E.
  - subst. rewrite lookup_alter_eq. by destruct (h !! p).
  - by rewrite lookup_alter_ne.
Qed.

Lemma prevf_set_prev h p v u :
  prevf (set_prev p v h) u =
  if decide (u = p) then (λ _, v) <$> prevf h u else prevf h u.
Proof.
  unfold prevf, set_prev. case_decide as E.
  - subst. rewrite lookup_alter_eq. by destruct (h !! p).
  - by rewrite lookup_alter_ne.
Qed.

Lemma alloc_set_next_2 h p v u :
  is_Some (h !! u) → is_Some (set_next p v h !! u).
Proof. apply alloc_set_next. Qed.

Lemma alloc_set_prev_2 h p v u :
  is_Some (h !! u) → is_Some (set_prev p v h !! u).
Proof. apply alloc_set_prev. Qed.

Lemma nextf_set_next_alloc h p v u :
  is_Some (h !! p) →
  nextf (set_next p v h) u = if decide (u = p) then Some v else nextf h u.
Proof.
  intros [nd E]. rewrite nextf_set_next. case_decide; [|done].
  subst. unfold nextf. by rewrite E.
Qed.

Lemma prevf_set_prev_alloc h p v u :
  is_Some (h !! p) →
  prevf (set_prev p v h) u = if decide (u = p) then Some v else prevf h u.
Proof.
  intros [nd E]. rewrite prevf_set_prev. case_decide; [|done].
  subst. unfold prevf. by rewrite E.
Qed.

Lemma wf_heap_set_prev h p v : wf_heap h → wf_heap (set_prev p v h).
Proof. intros W u Hu. apply W. by eapply alloc_set_prev. Qed.

Lemma wf_heap_set_next h p v : wf_heap h → wf_heap (set_next p v h).
Proof. intros W u Hu. apply W. by eapply alloc_set_next. Qed.

Lemma wf_heap_nonnull h p : wf_heap h → is_Some (h !! p) → p ≠ nullptr.
Proof. intros W Hp ->. apply W in Hp. unfold nullptr in Hp. lia. Qed.
End fields.

(** ** Running the primitives *)

Section exec.
Context {B : Type}.
Implicit Types (h : heap) (p v : Z).

Lemma exec_load_next h p v (k : Z → M B) :
  p ≠ nullptr → nextf h p = Some v →
  (let* x := load_next p in k x) h = k v h.
Proof.
  unfold nextf, load_next, bind, deref, ret. intros Hp E.
  rewrite decide_False by done.
  destruct (h !! p) as [nd|]; simplify_eq/=. done.
Qed.

Lemma exec_load_prev h p v (k : Z → M B) :
  p ≠ nullptr → prevf h p = Some v →
  (let* x := load_prev p in k x) h = k v h.
Proof.
  unfold prevf, load_prev, bind, deref, ret. intros Hp E.
  rewrite decide_False by done.
  destruct (h !! p) as [nd|]; simplify_eq/=. done.
Qed.

Lemma exec_store_next h p v (k : M B) :
  p ≠ nullptr → is_Some (h !! p) →
  (store_next p v ;; k) h = k (set_next p v h).
Proof.
  unfold store_next, bind, deref. intros Hp [nd E].
  rewrite decide_False by done. by rewrite E.
Qed.

Lemma exec_store_prev h p v (k : M B) :
  p ≠ nullptr → is_Some (h !! p) →
  (store_prev p v ;; k) h = k (set_prev p v h).
Proof.
  unfold store_prev, bind, deref. intros Hp [nd E].
  rewrite decide_False by done. by rewrite E.
Qed.
End exec.

Lemma run_store_next (h : heap) (p v : Z) :
  p ≠ nullptr → is_Some (h !! p) →
  store_next p v h = Some (tt, set_next p v h).
Proof.
  unfold store_next, bind, deref. intros Hp [nd E].
  rewrite decide_False by done. by rewrite E.
Qed.

Lemma run_store_prev (h : heap) (p v : Z) :
  p ≠ nullptr → is_Some (h !! p) →
  store_prev p v h = Some (tt, set_prev p v h).
Proof.
  unfold store_prev, bind, deref. intros Hp [nd E].
  rewrite decide_False by done. by rewrite E.
Qed.

Lemma run_load_next (h : heap) (p v : Z) :
  p ≠ nullptr → nextf h p = Some v → load_next p h = Some (v, h).
Proof.
  unfold nextf, load_next, bind, deref, ret. intros Hp E.
  rewrite decide_False by done.
  destruct (h !! p) as [nd|]; simplify_eq/=. done.
Qed.

Lemma run_load_prev (h : heap) (p v : Z) :
  p ≠ nullptr → prevf h p = Some v → load_prev p h = Some (v, h).
Proof.
  unfold prevf, load_prev, bind, deref, ret. intros Hp E.
  rewrite decide_False by done.
  destruct (h !! p) as [nd|]; simplify_eq/=. done.
Qed.

Section seg.
Implicit Types (h : heap) (a b x y u : Z) (l : list Z).

Lemma seg_app h a l1 x l2 b :
  seg h a (l1 ++ x :: l2) b ↔ seg h a l1 x ∧ seg h x l2 b.
Proof.
  revert a. induction l1 as [|y l1 IH]; intros a; simpl; [done|].
  rewrite IH. tauto.
Qed.

Lemma seg_snoc h a l x b :
  seg h a (l ++ [x]) b ↔ seg h a l x ∧ link h x b.
Proof. apply seg_app. Qed.

(** A segment read through a renaming of the nodes. *)
Lemma seg_relabel (f : Z → Z) h h' a l b :
  (∀ u, u ∈ a :: l → nextf h' (f u) = f <$> nextf h u) →
  (∀ u, u ∈ l ++ [b] → prevf h' (f u) = f <$> prevf h u) →
  seg h a l b → seg h' (f a) (f <$> l) (f b).
Proof.
  revert a. induction l as [|x l IH]; intros a HN HP; simpl.
  - intros [E1 E2]. split.
    + rewrite HN, E1; [done|]. apply list_elem_of_here.
    + rewrite HP, E2; [done|]. apply list_elem_of_here.
  - intros [[E1 E2] Hs]. split; [split|].
    + rewrite HN, E1; [done|]. apply list_elem_of_here.
    + rewrite HP, E2; [done|]. apply list_elem_of_here.
    + apply IH; [| |done]; intros u Hu.
      * apply HN. by apply list_elem_of_further.
      * apply HP. by apply list_elem_of_further.
Qed.

(** A segment only depends on the [m_next] of its sources and the
    [m_prev] of its targets. *)
Lemma seg_frame h h' a l b :
  (∀ u, u ∈ a :: l → nextf h' u = nextf h u) →
  (∀ u, u ∈ l ++ [b] → prevf h' u = prevf h u) →
  seg h a l b → seg h' a l b.
Proof.
  revert a. induction l as [|x l IH]; intros a HN HP; simpl.
  - intros [E1 E2]. split.
    + rewrite HN; [done|]. apply list_elem_of_here.
    + rewrite HP; [done|]. apply list_elem_of_here.
  - intros [[E1 E2] Hs]. split; [split|].
    + rewrite HN; [done|]. apply list_elem_of_here.
    + rewrite HP; [done|]. apply list_elem_of_here.
    + apply IH; [| |done]; intros u Hu.
      * apply HN. by apply list_elem_of_further.
      * apply HP. by apply list_elem_of_further.
Qed.

Lemma seg_alloc h a l b u :
  seg h a l b → u ∈ a :: l ++ [b] → is_Some (h !! u).
Proof.
  revert a. induction l as [|x l IH]; intros a; simpl.
  - intros [E1 E2] Hu.
    rewrite elem_of_cons, list_elem_of_singleton in Hu.
    destruct Hu as [->| ->]; eauto using nextf_alloc, prevf_alloc.
  - intros [[E1 E2] Hs] Hu. apply elem_of_cons in Hu as [->|Hu];
      eauto using nextf_alloc.
Qed.

(** Walking [m_next] along a segment. *)
Lemma seg_next h a l b i x :
  seg h a l b → (a :: l) !! i = Some x → nextf h x = (l ++ [b]) !! i.
Proof.
  revert a i. induction l as [|y l IH]; intros a i; simpl.
  - intros [E1 _]. destruct i as [|i]; simpl; [|done]. by intros [= <-].
  - intros [[E1 _] Hs]. destruct i as [|i]; simpl.
    + by intros [= <-].
    + apply IH, Hs.
Qed.

Lemma seg_prev h a l b i x :
  seg h a l b → (l ++ [b]) !! i = Some x → prevf h x = (a :: l) !! i.
Proof.
  revert a i. induction l as [|y l IH]; intros a i; simpl.
  - intros [_ E2]. destruct i as [|i]; simpl; [|done]. by intros [= <-].
  - intros [[_ E2] Hs]. destruct i as [|i]; simpl.
    + by intros [= <-].
    + apply IH, Hs.
Qed.
End seg.

(** Distinct addresses below a bound are fewer than the bound. *)
Lemma NoDup_bounded_length (l : list Z) (m : Z) :
  0 < m → NoDup l → (∀ x, x ∈ l → 0 < x < m) → Z.of_nat (length l) < m.
Proof.
  intros Hm ND Hb.
  assert (l ⊆+ seqZ 1 (m - 1)) as Hsub.
  { apply NoDup_submseteq; [done|]. intros x Hx. apply elem_of_seqZ.
    specialize (Hb x Hx). lia. }
  apply submseteq_length in Hsub. rewrite length_seqZ in Hsub. lia.
Qed.

(** ** Proof automation *)

(** [alloc]: an object that exists still exists after field updates. *)
Ltac alloc :=
  repeat first [ apply alloc_set_next_2 | apply alloc_set_prev_2 ];
  assumption.

(** [fields]: read a field through a stack of field updates, then settle
    the cases on which node was written. *)
Ltac fields :=
  repeat first
    [ rewrite nextf_set_prev | rewrite prevf_set_next
    | rewrite nextf_set_next_alloc by alloc
    | rewrite prevf_set_prev_alloc by alloc ];
  repeat case_decide; subst; try congruence.

(** [nodup]: a contradiction from the members being distinct. *)
Ltac nodup :=
  exfalso;
  repeat match goal with
    | H : NoDup (_ :: _) |- _ => apply NoDup_cons in H as [? ?]
    | H : NoDup (_ ++ _) |- _ => apply NoDup_app in H as (? & ? & ?)
    end;
  set_solver.

Ltac wf := auto 10 using wf_heap_set_next, wf_heap_set_prev.

(** [same_objects H]: field updates keep the set of objects [H] describes. *)
Ltac same_objects H :=
  intros ?u; rewrite <-H;
  by repeat first [ rewrite alloc_set_next | rewrite alloc_set_prev ].

(** Closed instances of the decidable predicates, by evaluation. *)
Ltac decide_true := apply (bool_decide_unpack _); vm_compute; exact I.
Ltac decide_false := apply (bool_decide_eq_false_1 _); vm_compute; reflexivity.

(** ** The member functions on a ring *)

Section ring_ops.
Implicit Types (h : heap) (l : list Z) (s x u : Z).

Lemma alloc_fields h x :
  is_Some (h !! x) → ∃ a b, prevf h x = Some a ∧ nextf h x = Some b.
Proof. intros [[a b] E]. exists a, b. unfold prevf, nextf. by rewrite E. Qed.

Lemma ring_alloc h s l u : ring h s l → u ∈ s :: l → is_Some (h !! u).
Proof.
  intros (_ & _ & Hs) Hu. eapply seg_alloc; [done|].
  rewrite app_comm_cons. apply elem_of_app. by left.
Qed.

Lemma ring_nonnull h s l u : ring h s l → u ∈ s :: l → u ≠ nullptr.
Proof.
  intros Hr Hu. eapply wf_heap_nonnull; [apply Hr|]. by eapply ring_alloc.
Qed.

Lemma ring_head h s l : ring h s l → nextf h s = Some (default s (head l)).
Proof. intros (_ & _ & Hs). destruct l; simpl in *; apply Hs. Qed.

Lemma ring_last h s l : ring h s l → prevf h s = Some (default s (last l)).
Proof.
  intros (_ & _ & Hs). destruct l as [|x l _] using rev_ind.
  - apply Hs.
  - apply seg_snoc in Hs as [_ [_ E]]. by rewrite last_snoc.
Qed.

Lemma push_front_ring h s l x :
  ring h s l → x ∉ s :: l → is_Some (h !! x) →
  let f := default s (head l) in
  let h' := set_next s x (set_prev x s (set_next x f (set_prev f x h))) in
  push_front s x h = Some (tt, h') ∧ ring h' s (x :: l).
Proof.
  intros Hr Hx Ha f h'.
  pose proof (ring_head _ _ _ Hr) as Ehd. fold f in Ehd.
  assert (s ≠ nullptr) as Hs0 by (eapply ring_nonnull; [done|set_solver]).
  assert (is_Some (h !! s)) as Has by (eapply ring_alloc; [done|set_solver]).
  assert (f ∈ s :: l) as Hf.
  { subst f. destruct l; simpl; set_solver. }
  assert (f ≠ nullptr) as Hf0 by (by eapply ring_nonnull).
  assert (is_Some (h !! f)) as Haf by (by eapply ring_alloc).
  assert (x ≠ nullptr) as Hx0 by (eapply wf_heap_nonnull; [apply Hr|done]).
  assert (x ≠ s) as Hxs by set_solver.
  assert (x ≠ f) as Hxf by (intros ->; done).
  destruct (alloc_fields _ _ Ha) as (xp & xn & Exp & Exn).
  split.
  - unfold push_front.
    rewrite (exec_load_next _ _ f) by done.
    rewrite exec_store_prev by done.
    rewrite (exec_load_next _ _ f) by fields.
    rewrite exec_store_next by alloc.
    rewrite exec_store_prev by alloc.
    rewrite run_store_next by alloc. done.
  - destruct Hr as (W & ND & Hseg). split; [|split].
    + subst h'. auto using wf_heap_set_next, wf_heap_set_prev.
    + apply NoDup_cons in ND as [Hsl ND]. 
      rewrite !NoDup_cons. set_solver.
    + simpl. destruct l as [|y l]; simpl in *.
      * destruct Hseg as [E1 E2]. subst f h'. repeat split; fields.
      * destruct Hseg as [[E1 E2] Hseg]. subst f h'. simpl in *.
        repeat split; try (fields; fail).
        eapply seg_frame; [| |done].
        -- intros u Hu. fields; nodup.
        -- intros u Hu. fields; nodup.
Qed.

Lemma ring_mem h s l u :
  ring h s l → u ∈ s :: l → u ≠ nullptr ∧ is_Some (h !! u).
Proof. eauto using ring_nonnull, ring_alloc. Qed.

Lemma ring_intro h s l :
  wf_heap h → NoDup (s :: l) → seg h s l s → ring h s l.
Proof. by intros; split. Qed.

Lemma push_back_ring h s l x :
  ring h s l → x ∉ s :: l → is_Some (h !! x) →
  let b := default s (last l) in
  let h' := set_prev s x (set_next x s (set_prev x b (set_next b x h))) in
  push_back s x h = Some (tt, h') ∧ ring h' s (l ++ [x]).
Proof.
  intros Hr Hx Ha b h'.
  pose proof (ring_last _ _ _ Hr) as Elast. fold b in Elast.
  destruct (ring_mem _ _ _ s Hr) as [Hs0 Has]; [set_solver|].
  assert (b ∈ s :: l) as Hb.
  { subst b. destruct l as [|y l _] using rev_ind; simpl; [set_solver|].
    rewrite last_snoc. set_solver. }
  destruct (ring_mem _ _ _ b Hr) as [Hb0 Hab]; [done|].
  assert (x ≠ nullptr) as Hx0 by (eapply wf_heap_nonnull; [apply Hr|done]).
  assert (x ≠ s) as Hxs by set_solver.
  assert (x ≠ b) as Hxb by (intros ->; done).
  destruct (alloc_fields _ _ Ha) as (xp & xn & Exp & Exn).
  split.
  - unfold push_back.
    rewrite (exec_load_prev _ _ b) by done.
    rewrite exec_store_next by done.
    rewrite (exec_load_prev _ _ b) by fields.
    rewrite exec_store_prev by alloc.
    rewrite exec_store_next by alloc.
    rewrite run_store_prev by alloc. done.
  - destruct Hr as (W & ND & Hseg). apply ring_intro.
    + subst h'. wf.
    + rewrite app_comm_cons. apply NoDup_app. split; [done|].
      split; [|apply NoDup_singleton]. set_solver.
    + apply seg_snoc. destruct l as [|y l _] using rev_ind; simpl in *.
      * destruct Hseg as [E1 E2]. subst b h'. repeat split; fields.
      * apply seg_snoc in Hseg as [Hseg [E1 E2]].
        subst b h'. rewrite last_snoc in *. simpl in *.
        split; [apply seg_snoc; split|]; try (repeat split; fields; fail).
        eapply seg_frame; [| |done].
        -- intros u Hu. fields; nodup.
        -- intros u Hu. fields; nodup.
Qed.

Lemma pop_front_ring h s x l :
  ring h s (x :: l) →
  let n := default s (head l) in
  let h' := set_prev n s (set_next s n h) in
  pop_front s h = Some (tt, h') ∧ ring h' s l.
Proof.
  intros Hr n h'.
  destruct (ring_mem _ _ _ s Hr) as [Hs0 Has]; [set_solver|].
  destruct (ring_mem _ _ _ x Hr) as [Hx0 Hax]; [set_solver|].
  assert (n ∈ s :: l) as Hn by (subst n; destruct l; simpl; set_solver).
  destruct (ring_mem _ _ _ n Hr) as [Hn0 Han]; [set_solver|].
  destruct Hr as (W & ND & [[E1 E2] Hseg]).
  assert (nextf h x = Some n) as E3 by (destruct l; simpl in *; apply Hseg).
  split.
  - unfold pop_front.
    rewrite (exec_load_next _ _ x) by done.
    rewrite (exec_load_next _ _ n) by done.
    rewrite exec_store_next by done.
    rewrite (exec_load_next _ _ n) by fields.
    rewrite run_store_prev by alloc. done.
  - apply ring_intro.
    + subst h'. wf.
    + apply NoDup_cons in ND as [? ND]. apply NoDup_cons in ND as [? ND].
      apply NoDup_cons. set_solver.
    + destruct l as [|y l]; simpl in *.
      * destruct Hseg as [E4 E5]. subst n h'. split; fields.
      * destruct Hseg as [[E4 E5] Hseg]. subst n h'. simpl in *.
        repeat split; try (fields; fail).
        eapply seg_frame; [| |done].
        -- intros u Hu. fields; nodup.
        -- intros u Hu. fields; nodup.
Qed.

Lemma pop_back_ring h s l x :
  ring h s (l ++ [x]) →
  let p := default s (last l) in
  let h' := set_next p s (set_prev s p h) in
  pop_back s h = Some (tt, h') ∧ ring h' s l.
Proof.
  intros Hr p h'.
  destruct (ring_mem _ _ _ s Hr) as [Hs0 Has]; [set_solver|].
  destruct (ring_mem _ _ _ x Hr) as [Hx0 Hax]; [set_solver|].
  assert (p ∈ s :: l) as Hp.
  { subst p. destruct l as [|y l _] using rev_ind; simpl; [set_solver|].
    rewrite last_snoc. set_solver. }
  destruct (ring_mem _ _ _ p Hr) as [Hp0 Hap]; [set_solver|].
  destruct Hr as (W & ND & Hseg).
  apply seg_snoc in Hseg as [Hseg [E1 E2]].
  assert (prevf h x = Some p) as E3.
  { destruct l as [|y l _] using rev_ind; simpl in *; [apply Hseg|].
    apply seg_snoc in Hseg as [_ [_ E]]. subst p. by rewrite last_snoc. }
  split.
  - unfold pop_back.
    rewrite (exec_load_prev _ _ x) by done.
    rewrite (exec_load_prev _ _ p) by done.
    rewrite exec_store_prev by done.
    rewrite (exec_load_prev _ _ p) by fields.
    rewrite run_store_next by alloc. done.
  - apply ring_intro.
    + subst h'. wf.
    + rewrite app_comm_cons in ND. by apply NoDup_app in ND as (? & _ & _).
    + destruct l as [|y l _] using rev_ind; simpl in *.
      * destruct Hseg as [E4 E5]. subst p h'. split; fields.
      * apply seg_snoc in Hseg as [Hseg [E4 E5]].
        subst p h'. rewrite last_snoc in *. simpl in *.
        apply seg_snoc. repeat split; try (fields; fail).
        eapply seg_frame; [| |done].
        -- intros u Hu. fields; nodup.
        -- intros u Hu. fields; nodup.
Qed.

Lemma ring_next_at h s l1 x l2 :
  ring h s (l1 ++ x :: l2) → nextf h x = Some (default s (head l2)).
Proof.
  intros (_ & _ & Hseg). apply seg_app in Hseg as [_ Hseg].
  destruct l2; simpl in *; apply Hseg.
Qed.

Lemma ring_prev_at h s l1 x l2 :
  ring h s (l1 ++ x :: l2) → prevf h x = Some (default s (last l1)).
Proof.
  intros (_ & _ & Hseg). apply seg_app in Hseg as [Hseg _].
  destruct l1 as [|y l1 _] using rev_ind; simpl in *; [apply Hseg|].
  apply seg_snoc in Hseg as [_ [_ E]]. by rewrite last_snoc.
Qed.

Lemma head_mem s l : default s (head l) ∈ s :: l.
Proof. destruct l; simpl; set_solver. Qed.

Lemma last_mem s l : default s (last l) ∈ s :: l.
Proof.
  destruct l as [|y l _] using rev_ind; simpl; [set_solver|].
  rewrite last_snoc. set_solver.
Qed.

Lemma unlink_ring h s l1 x l2 :
  ring h s (l1 ++ x :: l2) →
  let p := default s (last l1) in
  let n := default s (head l2) in
  let h' := set_prev x s (set_next x s (set_prev n p (set_next p n h))) in
  unlink s x h = Some (p, h') ∧ ring h' s (l1 ++ l2).
Proof.
  intros Hr p n h'.
  pose proof (ring_next_at _ _ _ _ _ Hr) as En. fold n in En.
  pose proof (ring_prev_at _ _ _ _ _ Hr) as Ep. fold p in Ep.
  destruct (ring_mem _ _ _ s Hr) as [Hs0 Has]; [set_solver|].
  destruct (ring_mem _ _ _ x Hr) as [Hx0 Hax]; [set_solver|].
  assert (p ∈ s :: l1) as Hp by apply last_mem.
  assert (n ∈ s :: l2) as Hn by apply head_mem.
  destruct (ring_mem _ _ _ p Hr) as [Hp0 Hap]; [set_solver|].
  destruct (ring_mem _ _ _ n Hr) as [Hn0 Han]; [set_solver|].
  destruct Hr as (W & ND & Hseg).
  split.
  - unfold unlink.
    rewrite (exec_load_prev _ _ p) by done.
    rewrite (exec_load_next _ _ n) by done.
    rewrite exec_store_next by done.
    rewrite exec_store_prev by alloc.
    rewrite exec_store_next by alloc.
    rewrite exec_store_prev by alloc. done.
  - apply ring_intro.
    + subst h'. wf.
    + rewrite app_comm_cons in *. apply NoDup_app in ND as (? & ? & ND).
      apply NoDup_cons in ND as [? ?]. apply NoDup_app. set_solver.
    + apply seg_app in Hseg as [Hs1 Hs2].
      destruct l1 as [|y l1 _] using rev_ind; destruct l2 as [|z l2];
        subst p n h'; rewrite ?last_snoc, ?app_nil_r in *; simpl in *.
      * destruct Hs1 as [E1 E2], Hs2 as [E3 E4]. split; fields.
      * destruct Hs1 as [E1 E2], Hs2 as [[E3 E4] Hs2].
        repeat split; try (fields; fail).
        eapply seg_frame; [| |done]; intros u Hu; fields; nodup.
      * apply seg_snoc in Hs1 as [Hs1 [E1 E2]]. destruct Hs2 as [E3 E4].
        apply seg_snoc. repeat split; try (fields; fail).
        eapply seg_frame; [| |done]; intros u Hu; fields; nodup.
      * apply seg_snoc in Hs1 as [Hs1 [E1 E2]].
        destruct Hs2 as [[E3 E4] Hs2].
        rewrite <-app_assoc. simpl. apply seg_app. split; [|split].
        -- eapply seg_frame; [| |done]; intros u Hu; fields; nodup.
        -- split; fields; nodup.
        -- eapply seg_frame; [| |done]; intros u Hu; fields; nodup.
Qed.

Lemma ring_app_cons h s l1 c l2 :
  ring h s (l1 ++ c :: l2) → ring h s ((l1 ++ [c]) ++ l2).
Proof. by rewrite <-app_assoc. Qed.

Lemma ring_cursor_ne h s l1 c l2 : ring h s (l1 ++ c :: l2) → c ≠ s.
Proof. intros (_ & ND & _) ->. nodup. Qed.

(** The scan of [erase] when the node is not ahead of the cursor. *)
Lemma erase_loop_absent fuel h s x l1 l2 :
  ring h s (l1 ++ l2) → x ∉ l2 → (length l2 ≤ fuel)%nat →
  erase_loop fuel s x (default s (head l2)) h = Some (false, h).
Proof.
  revert fuel l1. induction l2 as [|c l2 IH]; intros fuel l1 Hr Hx Hf.
  - simpl. destruct fuel; simpl; by rewrite decide_True.
  - destruct fuel as [|fuel]; [simpl in Hf; lia|]. simpl.
    rewrite decide_False by (by eapply ring_cursor_ne).
    rewrite decide_False by set_solver.
    rewrite (exec_load_next _ _ (default s (head l2))).
    + apply (IH fuel (l1 ++ [c])); [by apply ring_app_cons|set_solver|].
      simpl in Hf. lia.
    + eapply ring_nonnull; [done|set_solver].
    + by eapply ring_next_at.
Qed.

(** The scan of [erase] when the node is ahead of the cursor. *)
Lemma erase_loop_present fuel h s x l1 m l2 :
  ring h s (l1 ++ m ++ x :: l2) → (length m < fuel)%nat →
  erase_loop fuel s x (default s (head (m ++ x :: l2))) h =
  (unlink s x ;; ret true) h.
Proof.
  revert fuel l1. induction m as [|c m IH]; intros fuel l1 Hr Hf.
  - destruct fuel as [|fuel]; [simpl in Hf; lia|]. simpl.
    rewrite decide_False by (by eapply ring_cursor_ne).
    by rewrite decide_True.
  - destruct fuel as [|fuel]; [simpl in Hf; lia|]. simpl.
    rewrite decide_False by (by eapply (ring_cursor_ne _ _ l1)).
    rewrite decide_False.
    2:{ intros ->. destruct Hr as (_ & ND & _). nodup. }
    rewrite (exec_load_next _ _ (default s (head (m ++ x :: l2)))).
    + apply (IH fuel (l1 ++ [c])); [by apply ring_app_cons|].
      simpl in Hf. lia.
    + eapply ring_nonnull; [done|set_solver].
    + by eapply (ring_next_at _ _ l1).
Qed.

Lemma ring_bound h s l : ring h s l → Z.of_nat (length l) + 1 < size_t_modulus.
Proof.
  intros Hr. 
  assert (Z.of_nat (length (s :: l)) < size_t_modulus); [|simpl in *; lia].
  apply NoDup_bounded_length; [done|apply Hr|].
  intros u Hu. apply Hr. by eapply ring_alloc.
Qed.

Lemma size_loop_spec fuel h s l1 l2 count :
  ring h s (l1 ++ l2) → (length l2 ≤ fuel)%nat →
  0 ≤ count → count + Z.of_nat (length l2) < size_t_modulus →
  size_loop fuel s (default s (head l2)) count h =
  Some (count + Z.of_nat (length l2), h).
Proof.
  revert fuel l1 count.
  induction l2 as [|c l2 IH]; intros fuel l1 count Hr Hf Hc Hb.
  - simpl. destruct fuel; simpl; rewrite decide_True by done;
      unfold ret; do 2 f_equal; lia.
  - destruct fuel as [|fuel]; [simpl in Hf; lia|]. simpl length in *.
    simpl. rewrite decide_False by (by eapply ring_cursor_ne).
    rewrite (exec_load_next _ _ (default s (head l2))).
    + rewrite Z.mod_small by lia.
      rewrite (IH fuel (l1 ++ [c])); [|by apply ring_app_cons|lia..].
      do 2 f_equal. lia.
    + eapply ring_nonnull; [done|set_solver].
    + by eapply ring_next_at.
Qed.

Lemma iter_loop_spec fuel h s l1 l2 :
  ring h s (l1 ++ l2) → (length l2 ≤ fuel)%nat →
  iter_loop fuel s (default s (head l2)) h = Some (l2, h).
Proof.
  revert fuel l1. induction l2 as [|c l2 IH]; intros fuel l1 Hr Hf.
  - destruct fuel; simpl; unfold iter_neq;
      by rewrite bool_decide_false by (intros ?; done).
  - destruct fuel as [|fuel]; [simpl in Hf; lia|]. simpl.
    unfold iter_neq. rewrite bool_decide_true by (by eapply ring_cursor_ne).
    unfold iter_incr, next.
    rewrite (exec_load_next _ _ (default s (head l2))).
    + unfold bind at 1.
      rewrite (IH fuel (l1 ++ [c])); [done|by apply ring_app_cons|].
      simpl in Hf. lia.
    + eapply ring_nonnull; [done|set_solver].
    + by eapply ring_next_at.
Qed.

Lemma size_ring fuel h s l :
  ring h s l → (length l ≤ fuel)%nat →
  size fuel s h = Some (Z.of_nat (length l), h).
Proof.
  intros Hr Hf. unfold size.
  rewrite (exec_load_next _ _ (default s (head l))).
  - pose proof (ring_bound _ _ _ Hr).
    rewrite (size_loop_spec _ _ _ [] l); [done|done|done|lia|lia].
  - eapply ring_nonnull; [done|set_solver].
  - by apply ring_head.
Qed.

Lemma to_list_ring fuel h s l :
  ring h s l → (length l ≤ fuel)%nat → to_list fuel s h = Some (l, h).
Proof.
  intros Hr Hf. unfold to_list, begin, end_.
  rewrite (exec_load_next _ _ (default s (head l))).
  - unfold bind, ret. by rewrite (iter_loop_spec _ _ _ [] l).
  - eapply ring_nonnull; [done|set_solver].
  - by apply ring_head.
Qed.

Lemma empty_ring h s l :
  ring h s l → empty s h = Some (bool_decide (l = []), h).
Proof.
  intros Hr. unfold empty.
  rewrite (exec_load_next _ _ (default s (head l))).
  - unfold ret. do 2 f_equal. destruct l as [|c l]; simpl.
    + by rewrite !bool_decide_true.
    + rewrite bool_decide_false; [done|].
      by eapply (ring_cursor_ne _ _ []).
  - eapply ring_nonnull; [done|set_solver].
  - by apply ring_head.
Qed.

Lemma erase_ring_absent fuel h s l x :
  ring h s l → x ∉ l → (length l ≤ fuel)%nat →
  erase fuel s x h = Some (false, h).
Proof.
  intros Hr Hx Hf. unfold erase. unfold bind at 1.
  rewrite (empty_ring _ _ l) by done. case_bool_decide; [done|].
  rewrite (exec_load_next _ _ (default s (head l))).
  - by apply (erase_loop_absent _ _ _ _ []).
  - eapply ring_nonnull; [done|set_solver].
  - by apply ring_head.
Qed.

Lemma erase_ring_present fuel h s l1 x l2 :
  ring h s (l1 ++ x :: l2) → (length l1 < fuel)%nat →
  let p := default s (last l1) in
  let n := default s (head l2) in
  let h' := set_prev x s (set_next x s (set_prev n p (set_next p n h))) in
  erase fuel s x h = Some (true, h') ∧ ring h' s (l1 ++ l2).
Proof.
  intros Hr Hf p n h'.
  destruct (unlink_ring _ _ _ _ _ Hr) as [Hu Hr'].
  split; [|done]. unfold erase. unfold bind at 1.
  rewrite (empty_ring _ _ _ Hr).
  rewrite bool_decide_false by (by destruct l1).
  rewrite (exec_load_next _ _ (default s (head (l1 ++ x :: l2)))).
  - rewrite (erase_loop_present _ _ _ _ [] l1 l2) by done.
    unfold bind. by rewrite Hu.
  - eapply ring_nonnull; [apply Hr|set_solver].
  - by apply ring_head.
Qed.

End ring_ops.

(** ** The ring seen from any of its nodes, and [swap] *)

Section ring_swap.
Implicit Types (h : heap) (l m : list Z) (s x u a b n : Z).

Lemma ring_rotate h s l n :
  ring h s l → n ∈ s :: l → ∃ m, seg h n m n ∧ n :: m ≡ₚ s :: l.
Proof.
  intros (_ & _ & Hseg) Hn. apply elem_of_cons in Hn as [->|Hn].
  - by exists l.
  - apply list_elem_of_split in Hn as (l1 & l2 & ->).
    apply seg_app in Hseg as [H1 H2]. exists (l2 ++ s :: l1). split.
    + apply seg_app. by split.
    + rewrite (Permutation_app_comm l2), <-app_comm_cons.
      rewrite Permutation_swap. f_equiv.
      by rewrite Permutation_middle.
Qed.

Lemma seg_follow h a m b k y :
  wf_heap h → seg h a m b → (a :: m ++ [b]) !! k = Some y →
  follow_next k a h = Some (y, h).
Proof.
  intros W. revert a m. induction k as [|k IH]; intros a m Hseg Hk.
  - simpl in *. by simplify_eq.
  - simpl in *. unfold next.
    assert (a ≠ nullptr) as Ha.
    { eapply wf_heap_nonnull; [done|]. eapply seg_alloc; [done|]. 
      apply list_elem_of_here. }
    destruct m as [|x m]; simpl in *.
    + destruct Hseg as [E1 E2]. rewrite (exec_load_next _ _ b) by done.
      destruct k; simpl in *; by simplify_eq.
    + destruct Hseg as [[E1 E2] Hseg]. rewrite (exec_load_next _ _ x) by done.
      by apply (IH x m).
Qed.

Lemma ring_follow h s l n :
  ring h s l → n ∈ s :: l →
  follow_next (S (length l)) n h = Some (n, h) ∧
  ∀ k, (0 < k < S (length l))%nat → follow_next k n h ≠ Some (n, h).
Proof.
  intros Hr Hn. destruct (ring_rotate _ _ _ _ Hr Hn) as (m & Hseg & Hp).
  assert (length m = length l) as Hlen.
  { apply Permutation_length in Hp. simpl in Hp. lia. }
  assert (NoDup (n :: m)) as ND by (rewrite Hp; apply Hr).
  destruct Hr as (W & _ & _). split.
  - apply (seg_follow _ _ m n); [done..|]. simpl.
    rewrite <-Hlen. by rewrite list_lookup_middle.
  - intros k Hk. destruct k as [|k]; [lia|].
    destruct (lookup_lt_is_Some_2 m k) as [y Hy]; [lia|].
    rewrite (seg_follow _ _ m n _ y); [|done..|].
    + intros [= ->]. apply list_elem_of_lookup_2 in Hy.
      apply NoDup_cons in ND as [? _]. done.
    + simpl. by rewrite lookup_app_l by lia.
Qed.

Lemma ring_succ h s l u :
  ring h s l → u ∈ s :: l → ∃ y, y ∈ s :: l ∧ link h u y.
Proof.
  intros Hr Hu. destruct (ring_rotate _ _ _ _ Hr Hu) as (m & Hseg & Hp).
  destruct m as [|y m]; simpl in *.
  - by exists u.
  - exists y. split; [|apply Hseg]. rewrite <-Hp. set_solver.
Qed.

Lemma ring_pred h s l u :
  ring h s l → u ∈ s :: l → ∃ p, p ∈ s :: l ∧ link h p u.
Proof.
  intros Hr Hu. destruct (ring_rotate _ _ _ _ Hr Hu) as (m & Hseg & Hp).
  destruct m as [|y m _] using rev_ind; simpl in *.
  - by exists u.
  - apply seg_snoc in Hseg as [_ Hl].
    exists y. split; [|done]. rewrite <-Hp. set_solver.
Qed.

Lemma ring_no_self h s l u :
  ring h s l → l ≠ [] → u ∈ s :: l → nextf h u ≠ Some u.
Proof.
  intros Hr Hl Hu E.
  destruct (ring_follow _ _ _ _ Hr Hu) as [_ Hk].
  apply (Hk 1%nat); [destruct l; simpl; [done|lia]|].
  simpl. unfold next. rewrite (exec_load_next _ _ u); [done| |done].
  by eapply ring_nonnull.
Qed.

Lemma ring_no_two h s l u v :
  ring h s l → (2 ≤ length l)%nat → u ∈ s :: l →
  nextf h u = Some v → nextf h v ≠ Some u.
Proof.
  intros Hr Hl Hu E1 E2.
  destruct (ring_follow _ _ _ _ Hr Hu) as [_ Hk].
  apply (Hk 2%nat); [lia|].
  simpl. unfold next. 
  assert (wf_heap h) as W by apply Hr.
  rewrite (exec_load_next _ _ v); [| |done].
  - rewrite (exec_load_next _ _ u); [done| |done].
    eapply wf_heap_nonnull; eauto using nextf_alloc.
  - by eapply ring_nonnull.
Qed.

Lemma transp_involutive a b u : transp a b (transp a b u) = u.
Proof. unfold transp. repeat case_decide; congruence. Qed.

Lemma transp_comm a b u : transp a b u = transp b a u.
Proof. unfold transp. repeat case_decide; congruence. Qed.

#[global] Instance transp_inj a b : Inj (=) (=) (transp a b).
Proof.
  intros u v E. rewrite <-(transp_involutive a b u), E.
  apply transp_involutive.
Qed.

Lemma transp_case a b u :
  (u = a ∧ transp a b u = b) ∨ (u = b ∧ transp a b u = a) ∨
  (u ≠ a ∧ u ≠ b ∧ transp a b u = u).
Proof. unfold transp. repeat case_decide; subst; auto. Qed.

Lemma ring_relabel h h' s l a b :
  ring h s l → wf_heap h' → a ∈ l → b ∈ l →
  (∀ u, u ∈ s :: l → nextf h' (transp a b u) = transp a b <$> nextf h u) →
  (∀ u, u ∈ s :: l → prevf h' (transp a b u) = transp a b <$> prevf h u) →
  ring h' s (transp a b <$> l).
Proof.
  intros (W & ND & Hseg) W' Ha Hb HN HP.
  assert (transp a b s = s) as Es.
  { unfold transp. repeat case_decide; subst; try done; nodup. }
  apply ring_intro; [done|..].
  - rewrite <-Es, <-fmap_cons. by apply (NoDup_fmap_2 _).
  - cut (seg h' (transp a b s) (transp a b <$> l) (transp a b s)).
    { by rewrite Es. }
    apply (seg_relabel _ h); [done| |done].
    intros u Hu. apply HP. set_solver.
Qed.

Lemma swap_far_ring h s l a b :
  ring h s l → a ∈ l → b ∈ l → a ≠ b →
  nextf h a ≠ Some b → prevf h a ≠ Some b →
  ∃ h', swap a b h = Some (tt, h') ∧ ring h' s (transp a b <$> l) ∧
        (∀ u, u ∉ s :: l → h' !! u = h !! u) ∧
        (∀ u, is_Some (h' !! u) ↔ is_Some (h !! u)).
Proof.
  intros Hr Ha Hb Hab Hl Hrt.
  assert (l ≠ []) as Hne by (intros ->; set_solver).
  destruct (ring_succ _ _ _ a Hr) as (an & Han & Ean & Ean'); [set_solver|].
  destruct (ring_pred _ _ _ a Hr) as (ap & Hap & Eap' & Eap); [set_solver|].
  destruct (ring_succ _ _ _ b Hr) as (bn & Hbn & Ebn & Ebn'); [set_solver|].
  destruct (ring_pred _ _ _ b Hr) as (bp & Hbp & Ebp' & Ebp); [set_solver|].
  assert (an ≠ a) as ? by (intros ->; by eapply (ring_no_self _ _ _ a)).
  assert (bn ≠ b) as ? by (intros ->; by eapply (ring_no_self _ _ _ b)).
  assert (ap ≠ a) as ? by (intros ->; by eapply (ring_no_self _ _ _ a)).
  assert (bp ≠ b) as ? by (intros ->; by eapply (ring_no_self _ _ _ b)).
  assert (an ≠ b) as ? by congruence.
  assert (ap ≠ b) as ? by congruence.
  assert (bn ≠ a) as ? by congruence.
  assert (bp ≠ a) as ? by congruence.
  destruct (ring_mem _ _ _ a Hr) as [? ?]; [set_solver|].
  destruct (ring_mem _ _ _ b Hr) as [? ?]; [set_solver|].
  destruct (ring_mem _ _ _ an Hr) as [? ?]; [set_solver|].
  destruct (ring_mem _ _ _ ap Hr) as [? ?]; [set_solver|].
  destruct (ring_mem _ _ _ bn Hr) as [? ?]; [set_solver|].
  destruct (ring_mem _ _ _ bp Hr) as [? ?]; [set_solver|].
  eexists. split; [|split].
  - unfold swap, is_a_left_b, is_a_right_b.
    rewrite decide_False by done.
    unfold bind at 1. rewrite (exec_load_next _ _ an) by done.
    unfold ret at 1. rewrite bool_decide_false by done.
    unfold bind at 1. rewrite (exec_load_prev _ _ ap) by done.
    unfold ret at 1. rewrite bool_decide_false by done.
    rewrite (exec_load_prev _ _ ap) by done.
    rewrite (exec_load_next _ _ an) by done.
    rewrite (exec_load_prev _ _ bp) by done.
    rewrite (exec_load_next _ _ bn) by done.
    rewrite exec_store_next by alloc.
    rewrite exec_store_prev by alloc.
    rewrite exec_store_next by alloc.
    rewrite exec_store_prev by alloc.
    rewrite exec_store_prev by alloc.
    rewrite exec_store_next by alloc.
    rewrite exec_store_prev by alloc.
    rewrite run_store_next by alloc. reflexivity.
  - apply (ring_relabel h); [done|destruct Hr; wf|done|done|..].
    + intros u Hu.
      destruct (ring_succ _ _ _ u Hr Hu) as (y & Hy & Ey & Ey').
      rewrite Ey. simpl.
      destruct (transp_case a b u) as [[-> ->]|[[-> ->]|(? & ? & ->)]];
      destruct (transp_case a b y) as [[-> ->]|[[-> ->]|(? & ? & ->)]];
      fields.
    + intros u Hu.
      destruct (ring_pred _ _ _ u Hr Hu) as (y & Hy & Ey' & Ey).
      rewrite Ey. simpl.
      destruct (transp_case a b u) as [[-> ->]|[[-> ->]|(? & ? & ->)]];
      destruct (transp_case a b y) as [[-> ->]|[[-> ->]|(? & ? & ->)]];
      fields.
  - split.
    + intros u Hu.
      assert (u ≠ a ∧ u ≠ b ∧ u ≠ an ∧ u ≠ ap ∧ u ≠ bn ∧ u ≠ bp)
        as (?&?&?&?&?&?).
      { repeat split; intros ->; apply Hu;
          first [done|by apply list_elem_of_further]. }
      apply fields_eq; fields.
    + intros u.
      by repeat first [rewrite alloc_set_next | rewrite alloc_set_prev].
Qed.

Lemma two_members l a b : a ∈ l → b ∈ l → a ≠ b → (2 ≤ length l)%nat.
Proof.
  destruct l as [|x [|y l]]; simpl; [set_solver..|lia].
Qed.

Lemma swap_adjacent_ring h s l a b :
  ring h s l → a ∈ l → b ∈ l → nextf h a = Some b →
  ∃ h', swap_adjacent a b h = Some (tt, h') ∧
        ring h' s (transp a b <$> l) ∧
        (∀ u, u ∉ s :: l → h' !! u = h !! u) ∧
        (∀ u, is_Some (h' !! u) ↔ is_Some (h !! u)).
Proof.
  intros Hr Ha Hb Ean.
  assert (l ≠ []) as Hne by (intros ->; set_solver).
  assert (a ≠ b) as Hab by (intros ->; by eapply (ring_no_self _ _ _ b); [..|right|]).
  pose proof (two_members _ _ _ Ha Hb Hab) as Hlen.
  assert (a ∈ s :: l) as Ha' by (by right).
  assert (b ∈ s :: l) as Hb' by (by right).
  destruct (ring_succ _ _ _ a Hr Ha') as (an & _ & Ean0 & Ebp).
  assert (an = b) as -> by congruence. clear Ean0.
  destruct (ring_pred _ _ _ a Hr Ha') as (ap & Hap & Eap' & Eap).
  destruct (ring_succ _ _ _ b Hr Hb') as (bn & Hbn & Ebn & Ebn').
  assert (bn ≠ b) as ? by (intros ->; by eapply (ring_no_self _ _ _ b)).
  assert (ap ≠ a) as ? by (intros ->; by eapply (ring_no_self _ _ _ a)).
  assert (bn ≠ a) as ? by (intros ->; by eapply (ring_no_two _ _ _ a b)).
  assert (ap ≠ b) as ? by (intros ->; by eapply (ring_no_two _ _ _ a b)).
  destruct (ring_mem _ _ _ a Hr Ha') as [? ?].
  destruct (ring_mem _ _ _ b Hr Hb') as [? ?].
  destruct (ring_mem _ _ _ ap Hr Hap) as [? ?].
  destruct (ring_mem _ _ _ bn Hr Hbn) as [? ?].
  eexists. split; [|split].
  - unfold swap_adjacent.
    rewrite (exec_load_prev _ _ ap) by done.
    rewrite (exec_load_next _ _ bn) by done.
    rewrite exec_store_prev by alloc.
    rewrite exec_store_next by alloc.
    rewrite exec_store_prev by alloc.
    rewrite exec_store_next by alloc.
    rewrite exec_store_next by alloc.
    rewrite run_store_prev by alloc. reflexivity.
  - apply (ring_relabel h); [done|destruct Hr; wf|done|done|..].
    + intros u Hu.
      destruct (ring_succ _ _ _ u Hr Hu) as (y & Hy & Ey & Ey').
      rewrite Ey. simpl.
      destruct (transp_case a b u) as [[-> ->]|[[-> ->]|(? & ? & ->)]];
      destruct (transp_case a b y) as [[-> ->]|[[-> ->]|(? & ? & ->)]];
      fields.
    + intros u Hu.
      destruct (ring_pred _ _ _ u Hr Hu) as (y & Hy & Ey' & Ey).
      rewrite Ey. simpl.
      destruct (transp_case a b u) as [[-> ->]|[[-> ->]|(? & ? & ->)]];
      destruct (transp_case a b y) as [[-> ->]|[[-> ->]|(? & ? & ->)]];
      fields.
  - split.
    + intros u Hu.
      assert (u ≠ a ∧ u ≠ b ∧ u ≠ ap ∧ u ≠ bn) as (?&?&?&?).
      { repeat split; intros ->; by apply Hu. }
      apply fields_eq; fields.
    + intros u.
      by repeat first [rewrite alloc_set_next | rewrite alloc_set_prev].
Qed.

Lemma transp_same a l : transp a a <$> l = l.
Proof.
  rewrite <-(list_fmap_id l) at 2. apply list_fmap_ext.
  intros _ u _. unfold transp. repeat case_decide; by subst.
Qed.

Lemma swap_ring h s l a b :
  ring h s l → a ∈ l → b ∈ l →
  ∃ h', swap a b h = Some (tt, h') ∧
        ring h' s (transp a b <$> l) ∧
        (∀ u, u ∉ s :: l → h' !! u = h !! u) ∧
        (∀ u, is_Some (h' !! u) ↔ is_Some (h !! u)).
Proof.
  intros Hr Ha Hb.
  destruct (decide (a = b)) as [->|Hab].
  { exists h. unfold swap. rewrite decide_True by done.
    by rewrite transp_same. }
  assert (a ∈ s :: l) as Ha' by (by right).
  destruct (ring_succ _ _ _ a Hr Ha') as (an & _ & Ean & _).
  destruct (ring_pred _ _ _ a Hr Ha') as (ap & _ & Eap' & Eap).
  destruct (ring_mem _ _ _ a Hr Ha') as [? ?].
  destruct (decide (an = b)) as [->|Hl].
  { destruct (swap_adjacent_ring _ _ _ a b Hr) as (h' & E & ?); [done..|].
    exists h'. split; [|done]. unfold swap, is_a_left_b.
    rewrite decide_False by done.
    unfold bind at 1. rewrite (exec_load_next _ _ b) by done.
    unfold ret at 1. by rewrite bool_decide_true. }
  destruct (decide (ap = b)) as [->|Hrt].
  { destruct (swap_adjacent_ring _ _ _ b a Hr) as (h' & E & Hr' & ?);
      [done..|].
    exists h'. split; [|split; [|done]].
    - unfold swap, is_a_left_b, is_a_right_b.
      rewrite decide_False by done.
      unfold bind at 1. rewrite (exec_load_next _ _ an) by done.
      unfold ret at 1. rewrite bool_decide_false by done.
      unfold bind at 1. rewrite (exec_load_prev _ _ b) by done.
      unfold ret at 1. by rewrite bool_decide_true.
    - erewrite list_fmap_ext; [done|]. intros _ u _. apply transp_comm. }
  apply swap_far_ring; try done; congruence.
Qed.

End ring_swap.

(** ** Decision procedures for the ring predicates *)

Section decide.
Implicit Types (h : heap) (l : list Z) (s x : Z).

Lemma wf_heap_map_Forall h :
  wf_heap h ↔ map_Forall (λ p _, 0 < p < size_t_modulus) h.
Proof.
  split.
  - intros W p nd E. apply W. by exists nd.
  - intros W p [nd E]. by apply (W p nd).
Qed.

#[global] Instance wf_heap_dec h : Decision (wf_heap h).
Proof.
  refine (cast_if (decide (map_Forall (λ p _, 0 < p < size_t_modulus) h)));
    by rewrite wf_heap_map_Forall.
Defined.

#[global] Instance link_dec h x y : Decision (link h x y).
Proof. unfold link. apply _. Defined.

#[global] Instance seg_dec h a l b : Decision (seg h a l b).
Proof. revert a. induction l as [|x l IH]; intros a; simpl; apply _. Defined.

#[global] Instance ring_dec h s l : Decision (ring h s l).
Proof. unfold ring. apply _. Defined.

#[global] Instance op_pre_dec h s l o : Decision (op_pre h s l o).
Proof. destruct o; simpl; apply _. Defined.

#[global] Instance ops_pre_dec h s l ops : Decision (ops_pre h s l ops).
Proof. revert l. induction ops as [|o ops IH]; intros l; simpl; apply _. Defined.

#[global] Instance self_or_null_dec h x : Decision (self_or_null h x).
Proof. unfold self_or_null. apply _. Defined.

End decide.

(** ** Call sequences keep the ring *)

Section sequences.
Implicit Types (h : heap) (l m : list Z) (s x u a b n : Z).

Lemma filter_ne_absent x l : x ∉ l → filter (λ y, y ≠ x) l = l.
Proof.
  induction l as [|y l IH]; intros Hx; [done|].
  rewrite filter_cons_True by set_solver. f_equal. apply IH. set_solver.
Qed.

Lemma filter_ne_present x l1 l2 :
  NoDup (l1 ++ x :: l2) → filter (λ y, y ≠ x) (l1 ++ x :: l2) = l1 ++ l2.
Proof.
  intros ND. apply NoDup_app in ND as (_ & H1 & ND).
  apply NoDup_cons in ND as [H2 _].
  rewrite filter_app, filter_cons_False; [|intros H; by apply H].
  rewrite !filter_ne_absent; [done|done|].
  intros Hx. apply (H1 x Hx). apply list_elem_of_here.
Qed.

Lemma length_model_op o l : (length (model_op o l) ≤ S (length l))%nat.
Proof.
  destruct o; simpl.
  - lia.
  - rewrite length_app. simpl. lia.
  - destruct l; simpl; lia.
  - destruct l as [|y l _] using rev_ind; [simpl; lia|].
    rewrite removelast_last, length_app. lia.
  - pose proof (length_filter (λ y, y ≠ x) l). lia.
  - rewrite length_fmap. lia.
Qed.

(** One call made under its precondition keeps the ring, with the members
    [model_op] tells, and neither creates nor destroys a node object. *)
Lemma exec_op_ring fuel h s l o h0 :
  ring h s l → (∀ u, is_Some (h !! u) ↔ is_Some (h0 !! u)) →
  op_pre h0 s l o → (length l ≤ fuel)%nat →
  ∃ h', exec_op fuel s o h = Some (tt, h') ∧ ring h' s (model_op o l) ∧
        ∀ u, is_Some (h' !! u) ↔ is_Some (h0 !! u).
Proof.
  intros Hr Hdom Hpre Hf. destruct o as [x|x| | |x|a b]; simpl in *.
  - destruct Hpre as [Hx Ha]. apply Hdom in Ha.
    destruct (push_front_ring _ _ _ x Hr Hx Ha) as [E Hr'].
    eexists. split; [exact E|]. split; [exact Hr'|].
    same_objects Hdom.
  - destruct Hpre as [Hx Ha]. apply Hdom in Ha.
    destruct (push_back_ring _ _ _ x Hr Hx Ha) as [E Hr'].
    eexists. split; [exact E|]. split; [exact Hr'|].
    same_objects Hdom.
  - destruct l as [|x l]; [done|].
    destruct (pop_front_ring _ _ _ _ Hr) as [E Hr'].
    eexists. split; [exact E|]. split; [exact Hr'|].
    same_objects Hdom.
  - destruct l as [|x l _] using rev_ind; [done|].
    destruct (pop_back_ring _ _ _ _ Hr) as [E Hr'].
    rewrite removelast_last.
    eexists. split; [exact E|]. split; [exact Hr'|].
    same_objects Hdom.
  - destruct (decide (x ∈ l)) as [Hx|Hx].
    + apply list_elem_of_split in Hx as (l1 & l2 & ->).
      destruct (erase_ring_present fuel _ _ _ _ _ Hr) as [E Hr'].
      { rewrite length_app in Hf. simpl in Hf. lia. }
      rewrite filter_ne_present.
      2:{ destruct Hr as (_ & ND & _). by apply NoDup_cons in ND as [_ ?]. }
      eexists. split; [|split; [exact Hr'|]].
      * unfold bind. rewrite E. reflexivity.
      * same_objects Hdom.
    + exists h. rewrite filter_ne_absent by done.
      unfold bind. rewrite (erase_ring_absent _ _ _ l) by done.
      unfold ret. done.
  - destruct Hpre as [Ha Hb].
    destruct (swap_ring _ _ _ _ _ Hr Ha Hb) as (h' & E & Hr' & _ & Hd).
    exists h'. split; [done|]. split; [done|].
    intros u. by rewrite Hd.
Qed.

Lemma exec_ops_ring fuel h s l ops h0 :
  ring h s l → (∀ u, is_Some (h !! u) ↔ is_Some (h0 !! u)) →
  ops_pre h0 s l ops → (length l + length ops ≤ fuel)%nat →
  ∃ h', exec_ops fuel s ops h = Some (tt, h') ∧ ring h' s (model_ops ops l) ∧
        (length (model_ops ops l) ≤ fuel)%nat.
Proof.
  revert h l. induction ops as [|o ops IH]; intros h l Hr Hdom Hpre Hf.
  - exists h. simpl in *. split; [done|]. split; [done|]. lia.
  - simpl in *. destruct Hpre as [Hpre Hrest].
    destruct (exec_op_ring fuel _ _ _ o h0 Hr Hdom Hpre)
      as (h1 & E & Hr1 & Hd1); [lia|].
    pose proof (length_model_op o l).
    destruct (IH h1 (model_op o l) Hr1 Hd1 Hrest)
      as (h' & E' & Hr' & Hl'); [lia|].
    exists h'. unfold bind. rewrite E. done.
Qed.

Lemma ring_ring_ok fuel h s l :
  ring h s l → (length l ≤ fuel)%nat → ring_ok fuel s h.
Proof.
  intros Hr Hf. exists (Z.of_nat (length l)), l.
  split; [by apply size_ring|]. split; [by apply to_list_ring|].
  intros n Hn. rewrite Nat2Z.id, Nat.add_1_r.
  destruct (ring_succ _ _ _ _ Hr Hn) as (y & Hy & E1 & E2).
  destruct (ring_pred _ _ _ _ Hr Hn) as (p & Hp & E3 & E4).
  destruct (ring_mem _ _ _ _ Hr Hn) as [? _].
  destruct (ring_mem _ _ _ _ Hr Hy) as [? _].
  destruct (ring_mem _ _ _ _ Hr Hp) as [? _].
  split; [|split].
  - unfold next, prev. rewrite (exec_load_next _ _ y) by done.
    by apply run_load_prev.
  - unfold next, prev. rewrite (exec_load_prev _ _ p) by done.
    by apply run_load_next.
  - by apply (ring_follow _ s).
Qed.

(** C1. Ring invariant: from a valid ring, every sequence of
    push_front / push_back / pop_front / pop_back / erase / swap calls in
    which each call meets its precondition (pops on a non-empty list,
    pushed nodes not linked, swapped nodes linked) runs to completion and
    leaves a valid ring: [size()] and the traversal return, every node [n]
    of the ring, the sentinel included, has [n.next.prev == n] and
    [n.prev.next == n], and following [next] from [n] comes back to [n]
    after exactly [size()+1] steps. *)
Theorem ring_invariant fuel h s l ops :
  ring h s l → ops_pre h s l ops → (length l + length ops ≤ fuel)%nat →
  ∃ h', exec_ops fuel s ops h = Some (tt, h') ∧
        ring h' s (model_ops ops l) ∧ ring_ok fuel s h'.
Proof.
  intros Hr Hpre Hf.
  destruct (exec_ops_ring fuel h s l ops h Hr) as (h' & E & Hr' & Hl');
    [done..|].
  exists h'. eauto using ring_ring_ok.
Qed.

End sequences.

(** ** The properties of the specification *)

Section claims.
Implicit Types (h : heap) (l m : list Z) (s x u a b n : Z).

(** What [unlink] leaves behind, field by field. *)
Lemma unlink_fields h s l1 x l2 :
  ring h s (l1 ++ x :: l2) →
  let p := default s (last l1) in
  let n := default s (head l2) in
  let h' := set_prev x s (set_next x s (set_prev n p (set_next p n h))) in
  link h p x ∧ link h x n ∧ link h' p n ∧
  prevf h' x = Some s ∧ nextf h' x = Some s ∧
  ∀ u, u ≠ p → u ≠ n → u ≠ x → h' !! u = h !! u.
Proof.
  intros Hr p n h'.
  pose proof (ring_next_at _ _ _ _ _ Hr) as En. fold n in En.
  pose proof (ring_prev_at _ _ _ _ _ Hr) as Ep. fold p in Ep.
  assert (x ∈ s :: l1 ++ x :: l2) as Hx by set_solver.
  destruct (ring_succ _ _ _ _ Hr Hx) as (n' & Hn & En1 & En2).
  destruct (ring_pred _ _ _ _ Hr Hx) as (p' & Hp & Ep1 & Ep2).
  assert (n' = n) as -> by congruence.
  assert (p' = p) as -> by congruence.
  assert (p ≠ x).
  { intros E. eapply (ring_no_self _ _ _ x Hr); [by destruct l1|done|].
    congruence. }
  assert (n ≠ x).
  { intros E. eapply (ring_no_self _ _ _ x Hr); [by destruct l1|done|].
    congruence. }
  destruct (ring_mem _ _ _ _ Hr Hx) as [? ?].
  destruct (ring_mem _ _ _ _ Hr Hn) as [? ?].
  destruct (ring_mem _ _ _ _ Hr Hp) as [? ?].
  subst h'. repeat split; try done; try (fields; fail).
  intros u ? ? ?. apply fields_eq; fields.
Qed.

(** C3. erase correctness: on a valid ring, [erase(x)] returns true exactly
    when [x] is a member; it then removes [x] and keeps the other members
    in order, makes the former neighbours of [x] point at each other,
    resets both pointers of [x] to the sentinel and touches no other node;
    otherwise it returns false and the heap is unchanged. *)
Theorem erase_correct fuel h s l x :
  ring h s l → (length l ≤ fuel)%nat →
  ∃ r h', erase fuel s x h = Some (r, h') ∧
    (r = true ↔ x ∈ l) ∧
    (x ∈ l → ∃ l1 l2 p n,
       l = l1 ++ x :: l2 ∧ ring h' s (l1 ++ l2) ∧ (x ∉ l1 ++ l2) ∧
       link h p x ∧ link h x n ∧ link h' p n ∧
       prevf h' x = Some s ∧ nextf h' x = Some s ∧
       ∀ u, u ≠ p → u ≠ n → u ≠ x → h' !! u = h !! u) ∧
    (x ∉ l → h' = h).
Proof.
  intros Hr Hf. destruct (decide (x ∈ l)) as [Hx|Hx].
  - pose proof Hx as Hx'.
    apply list_elem_of_split in Hx' as (l1 & l2 & ->).
    destruct (erase_ring_present fuel _ _ _ _ _ Hr) as [E Hr'].
    { rewrite length_app in Hf. simpl in Hf. lia. }
    eexists true, _. split; [exact E|]. split; [done|]. split; [|done].
    intros _. exists l1, l2, (default s (last l1)), (default s (head l2)).
    split; [done|]. split; [done|]. split.
    + destruct Hr as (_ & ND & _). intros Hin. nodup.
    + by apply unlink_fields.
  - exists false, h. split; [by apply (erase_ring_absent _ _ _ l)|].
    split; [split; [done|by intros ?]|]. split; [by intros ?|done].
Qed.

(** C9, as the code has it: the node removed by [erase] has both pointers
    reset to the sentinel of the list, which is neither the node itself
    nor null. *)
Theorem erase_resets_to_sentinel fuel h s l x :
  ring h s l → x ∈ l → (length l ≤ fuel)%nat →
  ∃ h', erase fuel s x h = Some (true, h') ∧
        prevf h' x = Some s ∧ nextf h' x = Some s ∧ ¬ self_or_null h' x.
Proof.
  intros Hr Hx Hf. pose proof Hx as Hx'.
  apply list_elem_of_split in Hx' as (l1 & l2 & ->).
  destruct (erase_ring_present fuel _ _ _ _ _ Hr) as [E Hr'].
  { rewrite length_app in Hf. simpl in Hf. lia. }
  destruct (unlink_fields _ _ _ _ _ Hr) as (_ & _ & _ & E1 & E2 & _).
  eexists. split; [exact E|]. split; [done|]. split; [done|].
  assert (s ≠ x) by (destruct Hr as (_ & ND & _); intros ->; nodup).
  assert (s ≠ nullptr) by (eapply ring_nonnull; [done|set_solver]).
  intros [[? ?]|[? ?]]; congruence.
Qed.

(** Two rings with the same members agree on every member. *)
Lemma ring_unique_fields h h' s l u :
  ring h s l → ring h' s l → u ∈ s :: l → h' !! u = h !! u.
Proof.
  intros (_ & _ & H1) (_ & _ & H2) Hu. apply fields_eq.
  - assert (u ∈ l ++ [s]) as Hu' by set_solver.
    apply list_elem_of_lookup in Hu' as [i Hi].
    by rewrite (seg_prev _ _ _ _ _ _ H1 Hi), (seg_prev _ _ _ _ _ _ H2 Hi).
  - apply list_elem_of_lookup in Hu as [i Hi].
    by rewrite (seg_next _ _ _ _ _ _ H1 Hi), (seg_next _ _ _ _ _ _ H2 Hi).
Qed.

Lemma transp_fmap_mem a b l u :
  a ∈ l → b ∈ l → u ∈ transp a b <$> l → u ∈ l.
Proof.
  intros Ha Hb Hu. apply list_elem_of_fmap in Hu as (y & -> & Hy).
  by destruct (transp_case a b y) as [[-> ->]|[[-> ->]|(? & ? & ->)]].
Qed.

Lemma transp_fmap_involutive a b l : transp a b <$> (transp a b <$> l) = l.
Proof.
  rewrite <-list_fmap_compose. rewrite <-(list_fmap_id l) at 2.
  apply list_fmap_ext. intros _ u _. apply transp_involutive.
Qed.

(** C5. swap idempotence: on a valid ring and for distinct member nodes
    [a], [b], adjacent or not, [swap(a,b)] exchanges their places and a
    second [swap(a,b)] restores the original order; the heap is then the
    one before the two calls. *)
Theorem swap_swap h s l a b :
  ring h s l → a ∈ l → b ∈ l → a ≠ b →
  ∃ h1 h2, swap a b h = Some (tt, h1) ∧ swap a b h1 = Some (tt, h2) ∧
    ring h1 s (transp a b <$> l) ∧ ring h2 s l ∧ h2 = h ∧
    ∀ fuel, (length l ≤ fuel)%nat → to_list fuel s h2 = Some (l, h2).
Proof.
  intros Hr Ha Hb Hab.
  destruct (swap_ring _ _ _ _ _ Hr Ha Hb) as (h1 & E1 & Hr1 & F1 & _).
  assert (a ∈ transp a b <$> l) as Ha1.
  { apply list_elem_of_fmap. exists b. split; [|done].
    unfold transp. repeat case_decide; congruence. }
  assert (b ∈ transp a b <$> l) as Hb1.
  { apply list_elem_of_fmap. exists a. split; [|done].
    unfold transp. repeat case_decide; congruence. }
  destruct (swap_ring _ _ _ _ _ Hr1 Ha1 Hb1) as (h2 & E2 & Hr2 & F2 & _).
  rewrite transp_fmap_involutive in Hr2.
  exists h1, h2. split; [done|]. split; [done|]. split; [done|].
  split; [done|]. split.
  - apply map_eq. intros u. destruct (decide (u ∈ s :: l)) as [Hu|Hu].
    + by apply (ring_unique_fields _ _ s l).
    + rewrite F2, F1; [done|done|]. intros Hin. apply Hu.
      apply elem_of_cons in Hin as [->|Hin]; [by left|right].
      by apply (transp_fmap_mem a b).
  - intros fuel Hf. by apply to_list_ring.
Qed.

(** C6. push/pop symmetry: on a valid ring, empty or not, [push_front(x)]
    of a node that is not linked followed by [pop_front()] gives back the
    same members in the same order, and no object other than [x] itself,
    the sentinel included, has changed. *)
Theorem push_front_pop_front h s l x :
  ring h s l → x ∉ s :: l → is_Some (h !! x) →
  ∃ h1 h2, push_front s x h = Some (tt, h1) ∧ pop_front s h1 = Some (tt, h2) ∧
    ring h2 s l ∧ h2 !! s = h !! s ∧ (∀ u, u ≠ x → h2 !! u = h !! u) ∧
    ∀ fuel, (length l ≤ fuel)%nat → to_list fuel s h2 = Some (l, h2).
Proof.
  intros Hr Hx Ha.
  destruct (push_front_ring _ _ _ _ Hr Hx Ha) as [E1 Hr1].
  destruct (pop_front_ring _ _ _ _ Hr1) as [E2 Hr2].
  eexists _, _. split; [exact E1|]. split; [exact E2|]. split; [done|].
  cut (∀ u, u ≠ x →
         set_prev (default s (head l)) s
           (set_next s (default s (head l))
              (set_next s x (set_prev x s
                 (set_next x (default s (head l))
                    (set_prev (default s (head l)) x h))))) !! u = h !! u).
  { intros Hfr. split; [apply Hfr; intros ->; apply Hx; by left|].
    split; [done|]. by intros; apply to_list_ring. }
  intros u Hu.
  assert (s ∈ s :: l) as Hs by set_solver.
  destruct (ring_succ _ _ _ _ Hr Hs) as (f & Hf & Ef1 & Ef2).
  pose proof (ring_head _ _ _ Hr) as Ehd.
  assert (f = default s (head l)) as Ef by congruence.
  rewrite <-Ef in *.
  destruct (ring_mem _ _ _ _ Hr Hs) as [? ?].
  destruct (ring_mem _ _ _ _ Hr Hf) as [? ?].
  apply fields_eq; fields.
Qed.

(** C7. Size/emptiness duality: on a valid ring [empty()] is true exactly
    when [size()] is zero. *)
Theorem empty_iff_size_zero fuel h s l :
  ring h s l → (length l ≤ fuel)%nat →
  ∃ e k, empty s h = Some (e, h) ∧ size fuel s h = Some (k, h) ∧
         (e = true ↔ k = 0).
Proof.
  intros Hr Hf. exists (bool_decide (l = [])), (Z.of_nat (length l)).
  split; [by apply empty_ring|]. split; [by apply size_ring|].
  rewrite bool_decide_eq_true. destruct l; simpl; split; try done; lia.
Qed.

(** Popping at either end of a self-linked sentinel rewrites it with the
    values it already holds. *)
Lemma pop_self_linked h s :
  s ≠ nullptr → h !! s = Some (Node s s) →
  pop_front s h = Some (tt, h) ∧ pop_back s h = Some (tt, h).
Proof.
  intros Hs E.
  assert (nextf h s = Some s) as En by (unfold nextf; by rewrite E).
  assert (prevf h s = Some s) as Ep by (unfold prevf; by rewrite E).
  assert (is_Some (h !! s)) as Ha by (by rewrite E).
  split.
  - unfold pop_front.
    rewrite (exec_load_next _ _ s) by done.
    rewrite (exec_load_next _ _ s) by done.
    rewrite exec_store_next by done.
    rewrite (exec_load_next _ _ s) by fields.
    rewrite run_store_prev by alloc.
    do 2 f_equal. apply map_eq. intros u. apply fields_eq; fields.
  - unfold pop_back.
    rewrite (exec_load_prev _ _ s) by done.
    rewrite (exec_load_prev _ _ s) by done.
    rewrite exec_store_prev by done.
    rewrite (exec_load_prev _ _ s) by fields.
    rewrite run_store_next by alloc.
    do 2 f_equal. apply map_eq. intros u. apply fields_eq; fields.
Qed.

Lemma ring_empty_lookup h s : ring h s [] → h !! s = Some (Node s s).
Proof.
  intros (_ & _ & [En Ep]). unfold nextf, prevf in *.
  destruct (h !! s) as [[p n]|]; simplify_eq/=. done.
Qed.

(** C8, as the code has it: [pop_front] and [pop_back] on an empty list
    return and leave a valid empty ring; the sentinel is not corrupted. *)
Theorem pop_on_empty_keeps_ring h s :
  ring h s [] →
  (∃ h', pop_front s h = Some (tt, h') ∧ ring h' s [] ∧
         empty s h' = Some (true, h')) ∧
  (∃ h', pop_back s h = Some (tt, h') ∧ ring h' s [] ∧
         empty s h' = Some (true, h')).
Proof.
  intros Hr.
  assert (s ≠ nullptr) as Hs by (eapply ring_nonnull; [done|set_solver]).
  destruct (pop_self_linked h s Hs (ring_empty_lookup _ _ Hr)) as [E1 E2].
  split; exists h; (split; [done|]); (split; [done|]);
    by rewrite (empty_ring _ _ []).
Qed.

(** C10. [pop_front] and [pop_back] on an empty list, whose sentinel is
    linked to itself in both directions as [Intrusive_list()] leaves it,
    change nothing at all: the heap after the call is the heap before. *)
Theorem pop_on_empty_unchanged h s :
  s ≠ nullptr → h !! s = Some (Node s s) →
  pop_front s h = Some (tt, h) ∧ pop_back s h = Some (tt, h) ∧
  prevf h s = Some s ∧ nextf h s = Some s.
Proof.
  intros Hs E. destruct (pop_self_linked h s Hs E) as [E1 E2].
  unfold prevf, nextf. rewrite E. done.
Qed.

(** [Intrusive_list()] builds the empty ring. *)
Lemma Intrusive_list_ctor_ring h s :
  wf_heap h → 0 < s < size_t_modulus →
  ∃ h', Intrusive_list_ctor s h = Some (tt, h') ∧
        h' !! s = Some (Node s s) ∧ ring h' s [] ∧
        ∀ u, u ≠ s → h' !! u = h !! u.
Proof.
  intros W Hs. assert (s ≠ nullptr) as Hs0 by (unfold nullptr; lia).
  set (h0 := <[s := Node nullptr nullptr]> h).
  assert (is_Some (h0 !! s)) as Ha by (subst h0; by rewrite lookup_insert_eq).
  assert (wf_heap h0) as W0.
  { intros u [nd Hu]. subst h0.
    apply lookup_insert_Some in Hu as [[<- _]|[_ Hu]]; [done|].
    apply W. by exists nd. }
  exists (set_next s s (set_prev s s h0)).
  assert (Intrusive_list_ctor s h
          = Some (tt, set_next s s (set_prev s s h0))) as E.
  { unfold Intrusive_list_ctor. unfold bind at 1.
    unfold Intrusive_list_node_ctor.
    rewrite decide_False by done. fold h0.
    rewrite exec_store_prev by done. by rewrite run_store_next by alloc. }
  assert (set_next s s (set_prev s s h0) !! s = Some (Node s s)) as El.
  { unfold set_next, set_prev. rewrite !lookup_alter_eq. subst h0.
    by rewrite lookup_insert_eq. }
  split; [done|]. split; [done|]. split.
  - apply ring_intro; [wf| apply NoDup_singleton |].
    simpl. unfold link, nextf, prevf. by rewrite El.
  - intros u Hu. unfold set_next, set_prev.
    rewrite !lookup_alter_ne by done. subst h0. by rewrite lookup_insert_ne.
Qed.

End claims.

(** ** The properties on concrete lists *)

(** C4. The scenario: push_back A, B, C gives the order A,B,C and size 3;
    swap(A,C) gives C,B,A; erase(B) returns true and gives C,A with size 2;
    pop_front() gives A with size 1. *)
Theorem scenario_push_swap_erase_pop :
  fst <$> scenario heap_ABC =
  Some ([nodeA; nodeB; nodeC], 3, [nodeC; nodeB; nodeA],
        (true, [nodeC; nodeA], 2), ([nodeA], 1)).
Proof. vm_compute. reflexivity. Qed.

Lemma iter_loop_stuck fuel : iter_loop fuel listM listL heap_moved = None.
Proof.
  induction fuel as [|fuel IH]; [done|].
  change (iter_loop (S fuel) listM listL) with
    (let* it' := iter_incr listL in
     let* rest := iter_loop fuel listM it' in ret (listL :: rest)).
  unfold iter_incr, next. rewrite (exec_load_next _ _ listL) by done.
  unfold bind. by rewrite IH.
Qed.

Lemma size_loop_stuck fuel count :
  size_loop fuel listM listL count heap_moved = None.
Proof.
  revert count. induction fuel as [|fuel IH]; intros count; [done|].
  change (size_loop (S fuel) listM listL count) with
    (let* n' := load_next listL in
     size_loop fuel listM n' ((count + 1) `mod` size_t_modulus)).
  rewrite (exec_load_next _ _ listL) by done. apply IH.
Qed.

(** C2, at one source list: moving the list [A] from [listL] to [listM]
    copies the sentinel pointers and resets the source, but [A] still
    points at the source sentinel on both sides; the new list is no ring
    and neither its traversal nor its [size()] ever ends. *)
Theorem move_ctor_keeps_old_sentinel :
  ring heap_one listL [nodeA] ∧
  Intrusive_list_move_ctor listM listL heap_one = Some (tt, heap_moved) ∧
  prevf heap_moved listM = Some nodeA ∧
  nextf heap_moved listM = Some nodeA ∧
  prevf heap_moved nodeA = Some listL ∧
  nextf heap_moved nodeA = Some listL ∧
  ring heap_moved listL [] ∧
  (∀ l, ¬ ring heap_moved listM l) ∧
  (∀ fuel, to_list fuel listM heap_moved = None) ∧
  (∀ fuel, size fuel listM heap_moved = None).
Proof.
  split; [decide_true|]. split; [by vm_compute|].
  do 4 (split; [done|]). split; [decide_true|].
  split; [|split].
  - intros l (_ & _ & Hseg). destruct l as [|y l]; simpl in Hseg.
    + destruct Hseg as [E _]. by vm_compute in E.
    + destruct Hseg as [[E1 E2] _]. vm_compute in E1.
      injection E1 as <-. by vm_compute in E2.
  - intros fuel. unfold to_list, begin, end_.
    rewrite (exec_load_next _ _ nodeA) by done.
    unfold bind, ret. destruct fuel as [|fuel]; [done|].
    change (iter_loop (S fuel) listM nodeA) with
      (let* it' := iter_incr nodeA in
       let* rest := iter_loop fuel listM it' in ret (nodeA :: rest)).
    unfold iter_incr, next. rewrite (exec_load_next _ _ listL) by done.
    unfold bind. by rewrite iter_loop_stuck.
  - intros fuel. unfold size.
    rewrite (exec_load_next _ _ nodeA) by done.
    destruct fuel as [|fuel]; [done|].
    change (size_loop (S fuel) listM nodeA 0) with
      (let* n' := load_next nodeA in
       size_loop fuel listM n' ((0 + 1) `mod` size_t_modulus)).
    rewrite (exec_load_next _ _ listL) by done. apply size_loop_stuck.
Qed.

(** Moving an empty list: the new sentinel points at the source sentinel,
    so the new list does not even report itself empty. *)
Lemma move_ctor_empty_source :
  ring heap_empty listL [] ∧
  Intrusive_list_move_ctor listM listL heap_empty =
    Some (tt, heap_moved_empty) ∧
  empty listM heap_moved_empty = Some (false, heap_moved_empty) ∧
  ∀ l, ¬ ring heap_moved_empty listM l.
Proof.
  split; [decide_true|]. split; [by vm_compute|]. split; [by vm_compute|].
  intros l (_ & _ & Hseg). destruct l as [|y l]; simpl in Hseg.
  - destruct Hseg as [E _]. by vm_compute in E.
  - destruct Hseg as [[E1 E2] _]. vm_compute in E1.
    injection E1 as <-. by vm_compute in E2.
Qed.

(** [Intrusive_list()] on [heap_ABC] gives [heap_ABC_L]. *)
Lemma heap_ABC_L_ctor :
  Intrusive_list_ctor listL heap_ABC = Some (tt, heap_ABC_L).
Proof. by vm_compute. Qed.

(** C8 fails on the code: on the empty list neither [pop_front] nor
    [pop_back] faults or leaves anything but a valid empty ring. *)
Lemma pop_on_empty_counterexample :
  ring heap_empty listL [] ∧
  ¬ corrupts_empty_ring pop_front listL heap_empty ∧
  ¬ corrupts_empty_ring pop_back listL heap_empty.
Proof.
  split; [decide_true|].
  assert (ring heap_empty listL []) as Hr by decide_true.
  unfold corrupts_empty_ring.
  replace (pop_front listL heap_empty) with (Some (tt, heap_empty))
    by (by vm_compute).
  replace (pop_back listL heap_empty) with (Some (tt, heap_empty))
    by (by vm_compute).
  split; intros H; by apply H.
Qed.

(** C9 fails on the code: after [erase(A)] on the list [A] the pointers of
    [A] are neither self-referential nor null. *)
Lemma erase_reset_counterexample :
  ring heap_one listL [nodeA] ∧
  ∃ h', erase 1 listL nodeA heap_one = Some (true, h') ∧
        ¬ self_or_null h' nodeA.
Proof.
  split; [decide_true|].
  exists {[ listL := Node listL listL; nodeA := Node listL listL ]}.
  split; [by vm_compute|]. decide_false.
Qed.

(** ** Instances *)

Lemma ring_invariant_witness :
  ∃ h', exec_ops 8 listL calls heap_ABC_L = Some (tt, h') ∧
        ring h' listL (model_ops calls []) ∧ ring_ok 8 listL h'.
Proof.
  apply ring_invariant; [decide_true|decide_true|simpl; lia].
Defined.

Lemma erase_correct_witness :
  ∃ r h', erase 3 listL nodeB heap_three = Some (r, h') ∧
          (r = true ↔ nodeB ∈ [nodeA; nodeB; nodeC]).
Proof.
  destruct (erase_correct 3 heap_three listL [nodeA; nodeB; nodeC] nodeB)
    as (r & h' & E & Hr & _); [decide_true|simpl; lia|].
  by exists r, h'.
Defined.

Lemma swap_swap_witness :
  (∃ h1 h2, swap nodeA nodeB heap_three = Some (tt, h1) ∧
            swap nodeA nodeB h1 = Some (tt, h2) ∧ h2 = heap_three) ∧
  (∃ h1 h2, swap nodeA nodeC heap_three = Some (tt, h1) ∧
            swap nodeA nodeC h1 = Some (tt, h2) ∧ h2 = heap_three).
Proof.
  assert (ring heap_three listL [nodeA; nodeB; nodeC]) as Hr by decide_true.
  split.
  - destruct (swap_swap heap_three listL [nodeA; nodeB; nodeC] nodeA nodeB)
      as (h1 & h2 & E1 & E2 & _ & _ & E & _);
      [done|by vm_compute; left|by vm_compute; right; left|done|].
    by exists h1, h2.
  - destruct (swap_swap heap_three listL [nodeA; nodeB; nodeC] nodeA nodeC)
      as (h1 & h2 & E1 & E2 & _ & _ & E & _);
      [done|by vm_compute; left|by vm_compute; right; right; left|done|].
    by exists h1, h2.
Defined.

Lemma push_front_pop_front_witness :
  (∃ h1 h2, push_front listL nodeD heap_three = Some (tt, h1) ∧
            pop_front listL h1 = Some (tt, h2) ∧
            ring h2 listL [nodeA; nodeB; nodeC]) ∧
  (∃ h1 h2, push_front listL nodeD heap_empty_D = Some (tt, h1) ∧
            pop_front listL h1 = Some (tt, h2) ∧
            ring h2 listL []).
Proof.
  split.
  - destruct (push_front_pop_front heap_three listL
                [nodeA; nodeB; nodeC] nodeD)
      as (h1 & h2 & E1 & E2 & Hr & _); [decide_true..|].
    by exists h1, h2.
  - destruct (push_front_pop_front heap_empty_D listL [] nodeD)
      as (h1 & h2 & E1 & E2 & Hr & _); [decide_true..|].
    by exists h1, h2.
Defined.

Lemma empty_iff_size_zero_witness :
  ∃ e k, empty listL heap_three = Some (e, heap_three) ∧
         size 3 listL heap_three = Some (k, heap_three) ∧
         (e = true ↔ k = 0).
Proof.
  apply (empty_iff_size_zero 3 heap_three listL [nodeA; nodeB; nodeC]);
    [decide_true|simpl; lia].
Defined.

Lemma pop_on_empty_keeps_ring_witness :
  (∃ h', pop_front listL heap_empty = Some (tt, h') ∧
         ring h' listL [] ∧ empty listL h' = Some (true, h')) ∧
  (∃ h', pop_back listL heap_empty = Some (tt, h') ∧
         ring h' listL [] ∧ empty listL h' = Some (true, h')).
Proof. apply pop_on_empty_keeps_ring. decide_true. Defined.

Lemma erase_resets_to_sentinel_witness :
  ∃ h', erase 3 listL nodeB heap_three = Some (true, h') ∧
        prevf h' nodeB = Some listL ∧ nextf h' nodeB = Some listL ∧
        ¬ self_or_null h' nodeB.
Proof.
  apply (erase_resets_to_sentinel 3 heap_three listL [nodeA; nodeB; nodeC]);
    [decide_true|by vm_compute; right; left|simpl; lia].
Defined.

Lemma pop_on_empty_unchanged_witness :
  pop_front listL heap_empty = Some (tt, heap_empty) ∧
  pop_back listL heap_empty = Some (tt, heap_empty) ∧
  prevf heap_empty listL = Some listL ∧ nextf heap_empty listL = Some listL.
Proof. apply pop_on_empty_unchanged; by vm_compute. Defined.

(** * Further properties of the code *)

(** ** Observers: [front], [back] and the adjacency tests *)

Section observers.
Implicit Types (h : heap) (l m : list Z) (s x u a b n : Z).

(** [front()] and [back()] on a ring. *)
Lemma front_ring h s l :
  ring h s l → front s h = Some (default nullptr (head l), h).
Proof.
  intros Hr.
  assert (s ≠ nullptr) as Hs by (eapply ring_nonnull; [done|by left]).
  pose proof (ring_head _ _ _ Hr) as En.
  unfold front. unfold bind at 1. rewrite (empty_ring _ _ l) by done.
  destruct l as [|c l]; simpl in *; [done|]. by apply run_load_next.
Qed.

Lemma back_ring h s l :
  ring h s l → back s h = Some (default nullptr (last l), h).
Proof.
  intros Hr.
  assert (s ≠ nullptr) as Hs by (eapply ring_nonnull; [done|by left]).
  pose proof (ring_last _ _ _ Hr) as Ep.
  unfold back. unfold bind at 1. rewrite (empty_ring _ _ l) by done.
  destruct l as [|c l _] using rev_ind; simpl in *; [done|].
  rewrite bool_decide_false by (by destruct l).
  rewrite last_snoc in *. by apply run_load_prev.
Qed.

(** X1. On a valid ring [front()] returns the first member and [back()]
    the last one; each returns null exactly when the list is empty, and
    neither changes the heap. *)
Theorem front_back_ring h s l :
  ring h s l →
  front s h = Some (default nullptr (head l), h) ∧
  back s h = Some (default nullptr (last l), h) ∧
  (default nullptr (head l) = nullptr ↔ l = []) ∧
  (default nullptr (last l) = nullptr ↔ l = []).
Proof.
  intros Hr.
  split; [by apply front_ring|]. split; [by apply back_ring|]. split.
  - destruct l as [|c l]; simpl; [done|]. split; [|done]. intros ->.
    exfalso. eapply (ring_nonnull _ _ _ nullptr Hr); [|done].
    right. by left.
  - destruct l as [|c l _] using rev_ind; simpl; [done|].
    rewrite last_snoc. simpl. split; [|by destruct l]. intros ->.
    exfalso. eapply (ring_nonnull _ _ _ nullptr Hr); [|done].
    right. apply elem_of_app. right. by left.
Qed.

(** X2. For any two nodes of a valid ring, the sentinel included,
    [is_node_adj(a,b)] is the disjunction of [is_a_left_b(a,b)] and
    [is_a_right_b(a,b)]; [a] is left of [b] exactly when [b] is right of
    [a]; none of the three changes the heap. *)
Theorem adjacency_predicates h s l a b :
  ring h s l → a ∈ s :: l → b ∈ s :: l →
  ∃ ab ba,
    is_a_left_b a b h = Some (ab, h) ∧ is_a_right_b b a h = Some (ab, h) ∧
    is_a_right_b a b h = Some (ba, h) ∧ is_a_left_b b a h = Some (ba, h) ∧
    is_node_adj a b h = Some (ab || ba, h) ∧
    is_node_adj b a h = Some (ab || ba, h).
Proof.
  intros Hr Ha Hb.
  destruct (ring_succ _ _ _ _ Hr Ha) as (an & _ & Ean & Ean').
  destruct (ring_pred _ _ _ _ Hr Ha) as (ap & _ & Eap' & Eap).
  destruct (ring_succ _ _ _ _ Hr Hb) as (bn & _ & Ebn & Ebn').
  destruct (ring_pred _ _ _ _ Hr Hb) as (bp & _ & Ebp' & Ebp).
  destruct (ring_mem _ _ _ _ Hr Ha) as [? _].
  destruct (ring_mem _ _ _ _ Hr Hb) as [? _].
  exists (bool_decide (an = b)), (bool_decide (ap = b)).
  assert (bool_decide (bp = a) = bool_decide (an = b)) as E1.
  { apply bool_decide_ext. split; intros; congruence. }
  assert (bool_decide (bn = a) = bool_decide (ap = b)) as E2.
  { apply bool_decide_ext. split; intros; congruence. }
  assert (is_a_left_b a b h = Some (bool_decide (an = b), h)) as L1.
  { unfold is_a_left_b. by rewrite (exec_load_next _ a an). }
  assert (is_a_right_b b a h = Some (bool_decide (an = b), h)) as R1.
  { unfold is_a_right_b. rewrite (exec_load_prev _ b bp) by done.
    unfold ret. by rewrite E1. }
  assert (is_a_right_b a b h = Some (bool_decide (ap = b), h)) as R2.
  { unfold is_a_right_b. by rewrite (exec_load_prev _ a ap). }
  assert (is_a_left_b b a h = Some (bool_decide (ap = b), h)) as L2.
  { unfold is_a_left_b. rewrite (exec_load_next _ b bn) by done.
    unfold ret. by rewrite E2. }
  do 4 (split; [done|]). unfold is_node_adj. split.
  - rewrite (exec_load_next _ a an) by done.
    destruct (bool_decide (an = b)); [done|].
    rewrite (exec_load_prev _ a ap) by done.
    destruct (bool_decide (ap = b)) eqn:E3; [done|].
    rewrite (exec_load_next _ b bn) by done. rewrite ?E2, ?E3.
    rewrite (exec_load_prev _ b bp) by done. by rewrite ?E1.
  - rewrite (exec_load_next _ b bn) by done. rewrite E2.
    destruct (bool_decide (ap = b)) eqn:E3; [by rewrite orb_true_r|].
    rewrite (exec_load_prev _ b bp) by done. rewrite E1.
    destruct (bool_decide (an = b)) eqn:E4; [done|].
    rewrite (exec_load_next _ a an) by done. rewrite ?E4.
    rewrite (exec_load_prev _ a ap) by done. by rewrite ?E3.
Qed.

(** A member of a duplicate-free list splits it in one way only. *)
Lemma NoDup_split_unique (a : Z) (l1 l2 k1 k2 : list Z) :
  NoDup (l1 ++ a :: l2) → l1 ++ a :: l2 = k1 ++ a :: k2 →
  l1 = k1 ∧ l2 = k2.
Proof.
  revert k1. induction l1 as [|y l1 IH]; intros [|z k1] ND E; simplify_eq/=.
  - done.
  - exfalso. apply NoDup_cons in ND as [Hz _]. apply Hz.
    apply elem_of_app. right. by left.
  - exfalso. apply NoDup_cons in ND as [Hy _]. apply Hy.
    apply elem_of_app. right. by left.
  - apply NoDup_cons in ND as [_ ND].
    destruct (IH k1 ND) as [-> ->]; done.
Qed.

(** X3. For two member nodes of a valid ring, [is_a_left_b(a,b)] holds
    exactly when [b] comes right after [a] in the order of the list. *)
Theorem is_a_left_b_position h s l a b :
  ring h s l → a ∈ l → b ∈ l →
  ∃ r, is_a_left_b a b h = Some (r, h) ∧
       (r = true ↔ ∃ l1 l2, l = l1 ++ a :: b :: l2).
Proof.
  intros Hr Ha Hb. pose proof Ha as Ha'.
  apply list_elem_of_split in Ha' as (l1 & l2 & ->).
  pose proof (ring_next_at _ _ _ _ _ Hr) as En.
  destruct (ring_mem _ _ _ a Hr) as [? _]; [by right|].
  exists (bool_decide (default s (head l2) = b)). split.
  - unfold is_a_left_b.
    by rewrite (exec_load_next _ a (default s (head l2))).
  - rewrite bool_decide_eq_true. destruct Hr as (_ & ND & _). split.
    + intros E. destruct l2 as [|c l2]; simpl in E.
      * subst. nodup.
      * subst. by exists l1, l2.
    + intros (k1 & k2 & E). apply NoDup_cons in ND as [_ ND].
      by destruct (NoDup_split_unique _ _ _ _ _ ND E) as [_ ->].
Qed.

End observers.

(** ** What each push and pop does *)

Section mutators.
Implicit Types (h : heap) (l m : list Z) (s x u a b n : Z).

(** A ring only depends on the objects of its members. *)
Lemma ring_frame h h' s l :
  ring h s l → wf_heap h' → (∀ u, u ∈ s :: l → h' !! u = h !! u) →
  ring h' s l.
Proof.
  intros (_ & ND & Hseg) W Hfr. apply ring_intro; [done..|].
  eapply seg_frame; [| |done]; intros u Hu.
  - unfold nextf. by rewrite Hfr.
  - unfold prevf. rewrite Hfr; [done|]. set_solver.
Qed.

(** X4. [push_front(x)] of a node that is not linked puts [x] first: the
    traversal then gives [x] followed by the former members, [size()] has
    grown by one, [front()] is [x], and no object outside the list and
    other than [x] has changed. *)
Theorem push_front_spec fuel h s l x :
  ring h s l → x ∉ s :: l → is_Some (h !! x) → (length l < fuel)%nat →
  ∃ h', push_front s x h = Some (tt, h') ∧
        to_list fuel s h' = Some (x :: l, h') ∧
        size fuel s h' = Some (Z.of_nat (length l) + 1, h') ∧
        front s h' = Some (x, h') ∧
        ∀ u, u ∉ s :: l → u ≠ x → h' !! u = h !! u.
Proof.
  intros Hr Hx Ha Hf.
  destruct (push_front_ring _ _ _ _ Hr Hx Ha) as [E Hr'].
  eexists. split; [exact E|].
  split; [apply to_list_ring; [done|simpl; lia]|].
  split.
  { rewrite (size_ring _ _ _ (x :: l)); [|done|simpl; lia].
    do 2 f_equal. simpl length. lia. }
  split; [by rewrite (front_ring _ _ (x :: l))|].
  intros u Hu Hux.
  assert (default s (head l) ∈ s :: l) as Hf' by apply head_mem.
  destruct (ring_mem _ _ _ s Hr) as [_ ?]; [by left|].
  destruct (ring_mem _ _ _ _ Hr Hf') as [_ ?].
  assert (u ≠ s) by (intros ->; apply Hu; by left).
  assert (u ≠ default s (head l)) by (intros ->; by apply Hu).
  apply fields_eq; fields.
Qed.

(** X5. [push_back(x)] of a node that is not linked puts [x] last: the
    traversal then gives the former members followed by [x], [size()] has
    grown by one, [back()] is [x], and no object outside the list and
    other than [x] has changed. *)
Theorem push_back_spec fuel h s l x :
  ring h s l → x ∉ s :: l → is_Some (h !! x) → (length l < fuel)%nat →
  ∃ h', push_back s x h = Some (tt, h') ∧
        to_list fuel s h' = Some (l ++ [x], h') ∧
        size fuel s h' = Some (Z.of_nat (length l) + 1, h') ∧
        back s h' = Some (x, h') ∧
        ∀ u, u ∉ s :: l → u ≠ x → h' !! u = h !! u.
Proof.
  intros Hr Hx Ha Hf.
  destruct (push_back_ring _ _ _ _ Hr Hx Ha) as [E Hr'].
  assert (length (l ++ [x]) = S (length l)) as El.
  { rewrite length_app. simpl. lia. }
  eexists. split; [exact E|].
  split; [apply to_list_ring; [done|lia]|].
  split.
  { rewrite (size_ring _ _ _ (l ++ [x])); [|done|lia].
    do 2 f_equal. lia. }
  split.
  { rewrite (back_ring _ _ (l ++ [x])) by done. by rewrite last_snoc. }
  intros u Hu Hux.
  assert (default s (last l) ∈ s :: l) as Hb' by apply last_mem.
  destruct (ring_mem _ _ _ s Hr) as [_ ?]; [by left|].
  destruct (ring_mem _ _ _ _ Hr Hb') as [_ ?].
  assert (u ≠ s) by (intros ->; apply Hu; by left).
  assert (u ≠ default s (last l)) by (intros ->; by apply Hu).
  apply fields_eq; fields.
Qed.

(** X6. [pop_front()] on a non-empty list removes the first member [x]:
    the traversal then gives the other members, [size()] has dropped by
    one, and no object outside the remaining list has changed. In
    particular the pointers of [x] are not reset: they still lead to the
    sentinel and to the former second node. *)
Theorem pop_front_spec fuel h s x l :
  ring h s (x :: l) → (length l ≤ fuel)%nat →
  ∃ h', pop_front s h = Some (tt, h') ∧
        to_list fuel s h' = Some (l, h') ∧
        size fuel s h' = Some (Z.of_nat (length l), h') ∧
        prevf h' x = Some s ∧ nextf h' x = Some (default s (head l)) ∧
        ∀ u, u ∉ s :: l → h' !! u = h !! u.
Proof.
  intros Hr Hf.
  destruct (pop_front_ring _ _ _ _ Hr) as [E Hr'].
  eexists. split; [exact E|].
  split; [by apply to_list_ring|]. split; [by apply size_ring|].
  assert (default s (head l) ∈ s :: l) as Hn by apply head_mem.
  destruct (ring_mem _ _ _ s Hr) as [_ ?]; [by left|].
  destruct (ring_mem _ _ _ (default s (head l)) Hr) as [_ ?].
  { apply elem_of_cons in Hn as [->|Hn]; [by left|by do 2 right]. }
  assert (∀ u, u ∉ s :: l →
    set_prev (default s (head l)) s (set_next s (default s (head l)) h) !! u
    = h !! u) as Hfr.
  { intros u Hu.
    assert (u ≠ s) by (intros ->; apply Hu; by left).
    assert (u ≠ default s (head l)) by (intros ->; by apply Hu).
    apply fields_eq; fields. }
  assert (x ∉ s :: l) as Hx.
  { destruct Hr as (_ & ND & _). intros Hin. nodup. }
  split; [|split; [|done]].
  - unfold prevf. rewrite Hfr by done. apply (ring_prev_at _ _ [] x l Hr).
  - unfold nextf. rewrite Hfr by done. apply (ring_next_at _ _ [] x l Hr).
Qed.

(** X7. [pop_back()] on a non-empty list removes the last member [x]: the
    traversal then gives the other members, [size()] has dropped by one,
    and no object outside the remaining list has changed. In particular
    the pointers of [x] are not reset: they still lead to the former
    last-but-one node and to the sentinel. *)
Theorem pop_back_spec fuel h s l x :
  ring h s (l ++ [x]) → (length l ≤ fuel)%nat →
  ∃ h', pop_back s h = Some (tt, h') ∧
        to_list fuel s h' = Some (l, h') ∧
        size fuel s h' = Some (Z.of_nat (length l), h') ∧
        prevf h' x = Some (default s (last l)) ∧ nextf h' x = Some s ∧
        ∀ u, u ∉ s :: l → h' !! u = h !! u.
Proof.
  intros Hr Hf.
  destruct (pop_back_ring _ _ _ _ Hr) as [E Hr'].
  eexists. split; [exact E|].
  split; [by apply to_list_ring|]. split; [by apply size_ring|].
  assert (default s (last l) ∈ s :: l) as Hp by apply last_mem.
  destruct (ring_mem _ _ _ s Hr) as [_ ?]; [by left|].
  destruct (ring_mem _ _ _ (default s (last l)) Hr) as [_ ?].
  { apply elem_of_cons in Hp as [->|Hp]; [by left|right].
    apply elem_of_app. by left. }
  assert (∀ u, u ∉ s :: l →
    set_next (default s (last l)) s (set_prev s (default s (last l)) h) !! u
    = h !! u) as Hfr.
  { intros u Hu.
    assert (u ≠ s) by (intros ->; apply Hu; by left).
    assert (u ≠ default s (last l)) by (intros ->; by apply Hu).
    apply fields_eq; fields. }
  assert (x ∉ s :: l) as Hx.
  { destruct Hr as (_ & ND & _). intros Hin. rewrite app_comm_cons in ND.
    nodup. }
  split; [|split; [|done]].
  - unfold prevf. rewrite Hfr by done. apply (ring_prev_at _ _ l x [] Hr).
  - unfold nextf. rewrite Hfr by done. apply (ring_next_at _ _ l x [] Hr).
Qed.

(** X8. [push_back(x)] of a node that is not linked followed by
    [pop_back()] gives back the same members in the same order, and no
    object other than [x] itself has changed. *)
Theorem push_back_pop_back h s l x :
  ring h s l → x ∉ s :: l → is_Some (h !! x) →
  ∃ h1 h2, push_back s x h = Some (tt, h1) ∧ pop_back s h1 = Some (tt, h2) ∧
    ring h2 s l ∧ (∀ u, u ≠ x → h2 !! u = h !! u) ∧
    ∀ fuel, (length l ≤ fuel)%nat → to_list fuel s h2 = Some (l, h2).
Proof.
  intros Hr Hx Ha.
  destruct (push_back_ring _ _ _ _ Hr Hx Ha) as [E1 Hr1].
  destruct (pop_back_ring _ _ _ _ Hr1) as [E2 Hr2].
  eexists _, _. split; [exact E1|]. split; [exact E2|]. split; [done|].
  split; [|by intros; apply to_list_ring].
  intros u Hu.
  assert (s ∈ s :: l) as Hs by (by left).
  destruct (ring_pred _ _ _ _ Hr Hs) as (p & Hp & Ep1 & Ep2).
  pose proof (ring_last _ _ _ Hr) as Elast.
  assert (p = default s (last l)) as Ep by congruence.
  rewrite <-Ep in *.
  destruct (ring_mem _ _ _ _ Hr Hs) as [? ?].
  destruct (ring_mem _ _ _ _ Hr Hp) as [? ?].
  apply fields_eq; fields.
Qed.

End mutators.

(** ** How the calls compose *)

Section compose.
Implicit Types (h : heap) (l m : list Z) (s x u a b n : Z).

(** X9. [swap(a,b)] on two members of a valid ring exchanges their places
    and nothing else: the traversal gives the former order with [a] and
    [b] exchanged, [size()] is unchanged, and no object outside the list
    has changed. *)
Theorem swap_spec fuel h s l a b :
  ring h s l → a ∈ l → b ∈ l → (length l ≤ fuel)%nat →
  ∃ h', swap a b h = Some (tt, h') ∧
        to_list fuel s h' = Some (transp a b <$> l, h') ∧
        size fuel s h' = Some (Z.of_nat (length l), h') ∧
        ∀ u, u ∉ s :: l → h' !! u = h !! u.
Proof.
  intros Hr Ha Hb Hf.
  destruct (swap_ring _ _ _ _ _ Hr Ha Hb) as (h' & E & Hr' & Hfr & _).
  exists h'. split; [done|].
  split; [apply to_list_ring; [done|by rewrite length_fmap]|].
  split; [|done].
  rewrite (size_ring _ _ _ (transp a b <$> l)); [|done|];
    by rewrite length_fmap.
Qed.

Lemma transp_fmap_mem_iff a b l u :
  a ∈ l → b ∈ l → u ∈ transp a b <$> l ↔ u ∈ l.
Proof.
  intros Ha Hb. split.
  - intros Hu. apply list_elem_of_fmap in Hu as (y & -> & Hy).
    by destruct (transp_case a b y) as [[-> ->]|[[-> ->]|(? & ? & ->)]].
  - intros Hu. apply list_elem_of_fmap. exists (transp a b u).
    split; [by rewrite transp_involutive|].
    by destruct (transp_case a b u) as [[-> ->]|[[-> ->]|(? & ? & ->)]].
Qed.

(** Two heaps that hold the same ring and agree outside it are equal. *)
Lemma ring_heap_eq h1 h2 s l :
  ring h1 s l → ring h2 s l → (∀ u, u ∉ s :: l → h1 !! u = h2 !! u) →
  h1 = h2.
Proof.
  intros Hr1 Hr2 Hout. apply map_eq. intros u.
  destruct (decide (u ∈ s :: l)) as [Hu|Hu]; [|by apply Hout].
  destruct Hr1 as (_ & _ & H1), Hr2 as (_ & _ & H2). apply fields_eq.
  - assert (u ∈ l ++ [s]) as Hu' by set_solver.
    apply list_elem_of_lookup in Hu' as [i Hi].
    by rewrite (seg_prev _ _ _ _ _ _ H1 Hi), (seg_prev _ _ _ _ _ _ H2 Hi).
  - apply list_elem_of_lookup in Hu as [i Hi].
    by rewrite (seg_next _ _ _ _ _ _ H1 Hi), (seg_next _ _ _ _ _ _ H2 Hi).
Qed.

(** X10. [swap] does not depend on the order of its arguments: on two
    members of a valid ring [swap(a,b)] and [swap(b,a)] lead to the same
    heap. *)
Theorem swap_comm h s l a b :
  ring h s l → a ∈ l → b ∈ l →
  ∃ h', swap a b h = Some (tt, h') ∧ swap b a h = Some (tt, h').
Proof.
  intros Hr Ha Hb.
  destruct (swap_ring _ _ _ _ _ Hr Ha Hb) as (h1 & E1 & Hr1 & F1 & _).
  destruct (swap_ring _ _ _ _ _ Hr Hb Ha) as (h2 & E2 & Hr2 & F2 & _).
  assert (transp b a <$> l = transp a b <$> l) as El.
  { apply list_fmap_ext. intros _ u _. apply transp_comm. }
  rewrite El in Hr2.
  exists h1. split; [done|]. rewrite E2. do 2 f_equal.
  apply (ring_heap_eq _ _ s (transp a b <$> l)); [done..|].
  intros u Hu.
  assert (u ∉ s :: l) as Hu'.
  { intros Hin. apply Hu. apply elem_of_cons in Hin as [->|Hin]; [by left|].
    right. by apply transp_fmap_mem_iff. }
  by rewrite F1, F2.
Qed.

(** X11. Erasing a member twice: the first [erase(x)] returns true, the
    second returns false and changes nothing. *)
Theorem erase_twice fuel h s l x :
  ring h s l → x ∈ l → (length l ≤ fuel)%nat →
  ∃ h', erase fuel s x h = Some (true, h') ∧
        erase fuel s x h' = Some (false, h').
Proof.
  intros Hr Hx Hf. pose proof Hx as Hx'.
  apply list_elem_of_split in Hx' as (l1 & l2 & ->).
  rewrite length_app in Hf. simpl in Hf.
  destruct (erase_ring_present fuel _ _ _ _ _ Hr) as [E Hr']; [lia|].
  eexists. split; [exact E|].
  apply (erase_ring_absent _ _ _ (l1 ++ l2)); [done| |rewrite length_app; lia].
  destruct Hr as (_ & ND & _). intros Hin. nodup.
Qed.

(** X12. On a non-empty list [erase] of the first member and [pop_front()]
    remove the same node and leave the same list; the two heaps differ at
    most in the removed node itself, which only [erase] resets. *)
Theorem erase_front_is_pop_front fuel h s x l :
  ring h s (x :: l) → (0 < fuel)%nat →
  ∃ h1 h2, erase fuel s x h = Some (true, h1) ∧
           pop_front s h = Some (tt, h2) ∧
           ring h1 s l ∧ ring h2 s l ∧ ∀ u, u ≠ x → h1 !! u = h2 !! u.
Proof.
  intros Hr Hf.
  destruct (erase_ring_present fuel _ _ [] x l Hr) as [E1 Hr1];
    [simpl; lia|].
  destruct (pop_front_ring _ _ _ _ Hr) as [E2 Hr2].
  eexists _, _. split; [exact E1|]. split; [exact E2|].
  split; [done|]. split; [done|]. intros u Hu. simpl.
  destruct (ring_mem _ _ _ s Hr) as [_ ?]; [by left|].
  destruct (ring_mem _ _ _ x Hr) as [_ ?]; [right; by left|].
  destruct (ring_mem _ _ _ (default s (head l)) Hr) as [_ ?].
  { pose proof (head_mem s l) as Hn.
    apply elem_of_cons in Hn as [->|Hn]; [by left|by do 2 right]. }
  apply fields_eq; fields.
Qed.

(** X13. On a non-empty list [erase] of the last member and [pop_back()]
    remove the same node and leave the same list; the two heaps differ at
    most in the removed node itself, which only [erase] resets. *)
Theorem erase_back_is_pop_back fuel h s l x :
  ring h s (l ++ [x]) → (length l < fuel)%nat →
  ∃ h1 h2, erase fuel s x h = Some (true, h1) ∧
           pop_back s h = Some (tt, h2) ∧
           ring h1 s l ∧ ring h2 s l ∧ ∀ u, u ≠ x → h1 !! u = h2 !! u.
Proof.
  intros Hr Hl.
  destruct (erase_ring_present fuel _ _ l x [] Hr) as [E1 Hr1]; [done|].
  destruct (pop_back_ring _ _ _ _ Hr) as [E2 Hr2].
  rewrite app_nil_r in Hr1.
  eexists _, _. split; [exact E1|]. split; [exact E2|].
  split; [done|]. split; [done|]. intros u Hu. simpl.
  destruct (ring_mem _ _ _ s Hr) as [_ ?]; [by left|].
  destruct (ring_mem _ _ _ x Hr) as [_ ?].
  { right. apply elem_of_app. right. by left. }
  destruct (ring_mem _ _ _ (default s (last l)) Hr) as [_ ?].
  { pose proof (last_mem s l) as Hn.
    apply elem_of_cons in Hn as [->|Hn]; [by left|right].
    apply elem_of_app. by left. }
  apply fields_eq; fields.
Qed.

(** X14. [Intrusive_list()] at a fresh or reused address builds an empty
    list, whatever the heap held: [empty()] is true, [size()] is zero, the
    traversal visits nothing, [front()] and [back()] are null, and no
    other object has changed. *)
Theorem ctor_empty fuel h s :
  wf_heap h → 0 < s < size_t_modulus →
  ∃ h', Intrusive_list_ctor s h = Some (tt, h') ∧
        empty s h' = Some (true, h') ∧
        size fuel s h' = Some (0, h') ∧
        to_list fuel s h' = Some ([], h') ∧
        front s h' = Some (nullptr, h') ∧
        back s h' = Some (nullptr, h') ∧
        ∀ u, u ≠ s → h' !! u = h !! u.
Proof.
  intros W Hs.
  destruct (Intrusive_list_ctor_ring h s W Hs) as (h' & E & _ & Hr & Hfr).
  exists h'. split; [done|].
  split; [by rewrite (empty_ring _ _ [])|].
  split; [by rewrite (size_ring _ _ _ []) by (done || simpl; lia)|].
  split; [by rewrite (to_list_ring _ _ _ []) by (done || simpl; lia)|].
  split; [by rewrite (front_ring _ _ [])|].
  split; [by rewrite (back_ring _ _ [])|done].
Qed.

(** The backward loop, with the members [l1] still to visit. *)
Lemma riter_loop_spec fuel h s l1 l2 :
  ring h s (l1 ++ l2) → (length l1 ≤ fuel)%nat →
  riter_loop fuel s (default s (head l2)) h = Some (reverse l1, h).
Proof.
  revert fuel l2. induction l1 as [|y l1 IH] using rev_ind;
    intros fuel l2 Hr Hf.
  - assert (s ≠ nullptr) as Hs by (eapply ring_nonnull; [done|by left]).
    pose proof (ring_head _ _ _ Hr) as En. simpl in En.
    destruct fuel; simpl; unfold begin;
      rewrite (exec_load_next _ _ _ _ Hs En); unfold iter_neq;
      by rewrite bool_decide_false by (intros ?; done).
  - rewrite length_app in Hf. simpl in Hf.
    destruct fuel as [|fuel]; [lia|].
    assert (s ≠ nullptr) as Hs by (eapply ring_nonnull; [done|by left]).
    pose proof (ring_head _ _ _ Hr) as En.
    rewrite <-app_assoc in Hr, En. simpl in Hr, En.
    set (it := default s (head l2)).
    assert (it ∈ s :: l2) as Hit by apply head_mem.
    assert (prevf h it = Some y) as Ep.
    { subst it. destruct l2 as [|c l2]; simpl.
      - rewrite (ring_last _ _ _ Hr). by rewrite last_snoc.
      - rewrite (ring_prev_at h s (l1 ++ [y]) c l2).
        + by rewrite last_snoc.
        + by rewrite <-app_assoc. }
    assert (it ≠ nullptr) as Hit0.
    { eapply ring_nonnull; [done|]. set_solver. }
    assert (it ≠ default s (head (l1 ++ y :: l2))) as Hne.
    { destruct Hr as (_ & ND & _). intros E.
      assert (default s (head (l1 ++ y :: l2)) ∈ l1 ++ [y]) as Hh.
      { destruct l1; simpl; set_solver. }
      rewrite <-E in Hh. clear E Ep Hit0 En IH.
      replace (l1 ++ y :: l2) with ((l1 ++ [y]) ++ l2) in ND
        by (by rewrite <-app_assoc).
      clearbody it. nodup. }
    simpl. unfold begin. rewrite (exec_load_next _ _ _ _ Hs En).
    unfold iter_neq. rewrite bool_decide_true by done.
    unfold iter_decr, prev. rewrite (exec_load_prev _ _ y) by done.
    assert (riter_loop fuel s y h = Some (reverse l1, h)) as IH'.
    { apply (IH fuel (y :: l2)); [done|lia]. }
    unfold bind at 1. rewrite IH'. by rewrite reverse_snoc.
Qed.

(** X15. On a valid ring the backward traversal, from [end()] down to
    [begin()] with [operator--], visits the members in reverse order. *)
Theorem to_list_rev_ring fuel h s l :
  ring h s l → (length l ≤ fuel)%nat →
  to_list_rev fuel s h = Some (reverse l, h).
Proof.
  intros Hr Hf. unfold to_list_rev, end_. unfold bind, ret.
  rewrite <-(app_nil_r l) in Hr.
  by apply (riter_loop_spec _ _ _ l []).
Qed.

(** X16. [unlink(x)] on a member returns the node that was before [x]
    (the sentinel when [x] was first); afterwards that node is followed by
    the former successor of [x], and the other members keep their order. *)
Theorem unlink_spec h s l1 x l2 :
  ring h s (l1 ++ x :: l2) →
  ∃ p n h', unlink s x h = Some (p, h') ∧
            p = default s (last l1) ∧ n = default s (head l2) ∧
            link h p x ∧ link h x n ∧ link h' p n ∧ ring h' s (l1 ++ l2).
Proof.
  intros Hr.
  destruct (unlink_ring _ _ _ _ _ Hr) as [E Hr'].
  destruct (unlink_fields _ _ _ _ _ Hr) as (L1 & L2 & L3 & _).
  eexists _, _, _. split; [exact E|]. done.
Qed.

End compose.

(** ** Lists that share no node *)

Section independence.
Implicit Types (h : heap) (l m : list Z) (s x u a b n : Z).

(** A call made under its precondition only writes to the members of its
    list and to the node it links. *)
Lemma exec_op_frame fuel h s l o h' u :
  ring h s l → op_pre h s l o → (length l ≤ fuel)%nat →
  exec_op fuel s o h = Some (tt, h') →
  u ∉ s :: l → op_node_not_in o [u] → h' !! u = h !! u.
Proof.
  intros Hr Hpre Hf E Hu Hn.
  assert (u ≠ s) as Hus by (intros ->; apply Hu; by left).
  destruct (ring_mem _ _ _ s Hr) as [_ Has]; [by left|].
  destruct o as [x|x| | |x|a b]; simpl in *.
  - destruct Hpre as [Hx Ha].
    destruct (push_front_ring _ _ _ _ Hr Hx Ha) as [E' _].
    rewrite E' in E. injection E as <-.
    destruct (ring_mem _ _ _ _ Hr (head_mem s l)) as [_ ?].
    assert (u ≠ default s (head l)) by (intros ->; apply Hu, head_mem).
    assert (u ≠ x) by (intros ->; apply Hn; by left).
    apply fields_eq; fields.
  - destruct Hpre as [Hx Ha].
    destruct (push_back_ring _ _ _ _ Hr Hx Ha) as [E' _].
    rewrite E' in E. injection E as <-.
    destruct (ring_mem _ _ _ _ Hr (last_mem s l)) as [_ ?].
    assert (u ≠ default s (last l)) by (intros ->; apply Hu, last_mem).
    assert (u ≠ x) by (intros ->; apply Hn; by left).
    apply fields_eq; fields.
  - destruct l as [|x l]; [done|].
    destruct (pop_front_ring _ _ _ _ Hr) as [E' _].
    rewrite E' in E. injection E as <-.
    assert (default s (head l) ∈ s :: x :: l) as Hm.
    { pose proof (head_mem s l) as Hm.
      apply elem_of_cons in Hm as [->|Hm]; [by left|by do 2 right]. }
    destruct (ring_mem _ _ _ _ Hr Hm) as [_ ?].
    assert (u ≠ default s (head l)) by (intros ->; by apply Hu).
    apply fields_eq; fields.
  - destruct l as [|x l _] using rev_ind; [done|].
    destruct (pop_back_ring _ _ _ _ Hr) as [E' _].
    rewrite E' in E. injection E as <-.
    assert (default s (last l) ∈ s :: l ++ [x]) as Hm.
    { pose proof (last_mem s l) as Hm.
      apply elem_of_cons in Hm as [->|Hm]; [by left|right].
      apply elem_of_app. by left. }
    destruct (ring_mem _ _ _ _ Hr Hm) as [_ ?].
    assert (u ≠ default s (last l)) by (intros ->; by apply Hu).
    apply fields_eq; fields.
  - destruct (decide (x ∈ l)) as [Hx|Hx].
    + pose proof Hx as Hx'.
      apply list_elem_of_split in Hx' as (l1 & l2 & ->).
      destruct (erase_ring_present fuel _ _ _ _ _ Hr) as [E' _].
      { rewrite length_app in Hf. simpl in Hf. lia. }
      unfold bind in E. rewrite E' in E. injection E as <-.
      destruct (unlink_fields _ _ _ _ _ Hr) as (_ & _ & _ & _ & _ & Hfr).
      apply Hfr.
      * intros ->. apply Hu.
        pose proof (last_mem s l1) as Hm.
        apply elem_of_cons in Hm as [->|Hm]; [by left|right].
        apply elem_of_app. by left.
      * intros ->. apply Hu.
        pose proof (head_mem s l2) as Hm.
        apply elem_of_cons in Hm as [->|Hm]; [by left|right].
        apply elem_of_app. right. by right.
      * intros ->. apply Hu. by right.
    + unfold bind in E. rewrite (erase_ring_absent _ _ _ l) in E by done.
      by injection E as <-.
  - destruct Hpre as [Ha Hb].
    destruct (swap_ring _ _ _ _ _ Hr Ha Hb) as (h1 & E' & _ & Hfr & _).
    rewrite E' in E. injection E as <-. by apply Hfr.
Qed.

(** X17. Two lists that share no node do not disturb each other: a call
    made under its precondition on the first, linking no node of the
    second, leaves the second a valid ring with the same members in the
    same order. *)
Theorem lists_independent fuel h s1 l1 s2 l2 o :
  ring h s1 l1 → ring h s2 l2 →
  (∀ u, u ∈ s1 :: l1 → u ∉ s2 :: l2) →
  op_pre h s1 l1 o → op_node_not_in o (s2 :: l2) →
  (length l1 ≤ fuel)%nat →
  ∃ h', exec_op fuel s1 o h = Some (tt, h') ∧
        ring h' s1 (model_op o l1) ∧ ring h' s2 l2 ∧
        ∀ u, u ∈ s2 :: l2 → h' !! u = h !! u.
Proof.
  intros Hr1 Hr2 Hdisj Hpre Hn Hf.
  destruct (exec_op_ring fuel h s1 l1 o h Hr1) as (h' & E & Hr1' & _);
    [done..|].
  assert (∀ u, u ∈ s2 :: l2 → h' !! u = h !! u) as Hfr.
  { intros u Hu. apply (exec_op_frame fuel h s1 l1 o); try done.
    - intros Hin. by apply (Hdisj u).
    - destruct o; simpl in *; try done.
      + intros Hin. apply list_elem_of_singleton in Hin as ->. by apply Hn.
      + intros Hin. apply list_elem_of_singleton in Hin as ->. by apply Hn. }
  exists h'. split; [done|]. split; [done|]. split; [|done].
  apply (ring_frame h); [done|apply Hr1'|done].
Qed.

End independence.

(** ** Walking forward off a ring *)

Section forward.
Implicit Types (h : heap) (l m : list Z) (s x u a b n e : Z).

Lemma seg_fseg h a l b : seg h a l b → fseg h a l b.
Proof.
  revert a. induction l as [|x l IH]; intros a; simpl.
  - by intros [? _].
  - intros [[? _] ?]. auto.
Qed.

Lemma fseg_app h a l1 x l2 b :
  fseg h a (l1 ++ x :: l2) b ↔ fseg h a l1 x ∧ fseg h x l2 b.
Proof.
  revert a. induction l1 as [|y l1 IH]; intros a; simpl; [done|].
  rewrite IH. tauto.
Qed.

Lemma fseg_frame h h' a l b :
  (∀ u, u ∈ a :: l → nextf h' u = nextf h u) →
  fseg h a l b → fseg h' a l b.
Proof.
  revert a. induction l as [|x l IH]; intros a HN; simpl.
  - intros E. rewrite HN; [done|]. by left.
  - intros [E Hs]. split.
    + rewrite HN; [done|]. by left.
    + apply IH; [|done]. intros u Hu. apply HN. by right.
Qed.

Lemma fseg_head h a l b :
  fseg h a l b → nextf h a = Some (default b (head l)).
Proof. destruct l; simpl; [done|]. by intros [? _]. Qed.

(** The traversal along a forward chain that ends at the sentinel. *)
Lemma iter_loop_fseg fuel h e a l :
  fseg h a l e → (∀ c, c ∈ l → c ≠ e ∧ c ≠ nullptr) →
  (length l ≤ fuel)%nat →
  iter_loop fuel e (default e (head l)) h = Some (l, h).
Proof.
  revert fuel a. induction l as [|c l IH]; intros fuel a Hs Hc Hf.
  - destruct fuel; simpl; unfold iter_neq;
      by rewrite bool_decide_false by (intros ?; done).
  - destruct fuel as [|fuel]; [simpl in Hf; lia|]. simpl in Hs.
    destruct Hs as [_ Hs]. destruct (Hc c) as [? ?]; [by left|].
    simpl. unfold iter_neq. rewrite bool_decide_true by done.
    unfold iter_incr, next.
    rewrite (exec_load_next _ c (default e (head l)));
      [|done|by apply fseg_head].
    unfold bind at 1. rewrite (IH fuel c); [done|done| |simpl in Hf; lia].
    intros c' Hc'. apply Hc. by right.
Qed.

Lemma size_loop_fseg fuel h e a l count :
  fseg h a l e → (∀ c, c ∈ l → c ≠ e ∧ c ≠ nullptr) →
  (length l ≤ fuel)%nat →
  0 ≤ count → count + Z.of_nat (length l) < size_t_modulus →
  size_loop fuel e (default e (head l)) count h =
  Some (count + Z.of_nat (length l), h).
Proof.
  revert fuel a count.
  induction l as [|c l IH]; intros fuel a count Hs Hc Hf H0 Hb.
  - destruct fuel; simpl; rewrite decide_True by done;
      unfold ret; do 2 f_equal; lia.
  - destruct fuel as [|fuel]; [simpl in Hf; lia|]. simpl in Hs.
    destruct Hs as [_ Hs]. destruct (Hc c) as [? ?]; [by left|].
    simpl length in *. simpl. rewrite decide_False by done.
    rewrite (exec_load_next _ c (default e (head l)));
      [|done|by apply fseg_head].
    rewrite Z.mod_small by lia.
    rewrite (IH fuel c); [do 2 f_equal; lia|done| |lia..].
    intros c' Hc'. apply Hc. by right.
Qed.

(** The traversal along a forward chain that ends in a null pointer never
    returns: it runs out of budget or dereferences null. *)
Lemma iter_loop_null fuel h e a l :
  e ≠ nullptr → a ≠ e → (∀ c, c ∈ l → c ≠ e) → fseg h a l nullptr →
  iter_loop fuel e a h = None.
Proof.
  intros He. revert fuel a. induction l as [|c l IH]; intros fuel a Ha Hc Hs.
  - destruct fuel as [|fuel]; simpl; unfold iter_neq;
      rewrite bool_decide_true by done; [done|].
    simpl in Hs. unfold iter_incr, next.
    destruct (decide (a = nullptr)) as [->|Ha0].
    { unfold bind, load_next, bind, deref. by rewrite decide_True. }
    rewrite (exec_load_next _ a nullptr) by done.
    unfold bind.
    destruct fuel as [|fuel]; simpl; unfold iter_neq;
      rewrite bool_decide_true by done; [done|].
    unfold iter_incr, next, load_next, bind, deref.
    by rewrite decide_True.
  - destruct fuel as [|fuel]; simpl; unfold iter_neq;
      rewrite bool_decide_true by done; [done|].
    simpl in Hs. destruct Hs as [E Hs]. unfold iter_incr, next.
    destruct (decide (a = nullptr)) as [->|Ha0].
    { unfold bind, load_next, bind, deref. by rewrite decide_True. }
    rewrite (exec_load_next _ a c) by done.
    unfold bind. rewrite (IH fuel c); [done| |auto|done].
    + apply Hc. by left.
    + intros c' Hc'. apply Hc. by right.
Qed.

Lemma size_loop_null fuel h e a l count :
  e ≠ nullptr → a ≠ e → (∀ c, c ∈ l → c ≠ e) → fseg h a l nullptr →
  size_loop fuel e a count h = None.
Proof.
  intros He. revert fuel a count.
  induction l as [|c l IH]; intros fuel a count Ha Hc Hs.
  - destruct fuel as [|fuel]; simpl; rewrite decide_False by done; [done|].
    simpl in Hs.
    destruct (decide (a = nullptr)) as [->|Ha0].
    { unfold bind, load_next, bind, deref. by rewrite decide_True. }
    rewrite (exec_load_next _ a nullptr) by done.
    destruct fuel as [|fuel]; simpl; rewrite decide_False by done; [done|].
    unfold load_next, bind, deref. by rewrite decide_True.
  - destruct fuel as [|fuel]; simpl; rewrite decide_False by done; [done|].
    simpl in Hs. destruct Hs as [E Hs].
    destruct (decide (a = nullptr)) as [->|Ha0].
    { unfold bind, load_next, bind, deref. by rewrite decide_True. }
    rewrite (exec_load_next _ a c) by done.
    apply (IH fuel c); [|auto|done].
    + apply Hc. by left.
    + intros c' Hc'. apply Hc. by right.
Qed.

End forward.

(** ** [insert] *)

Section insert_move.
Implicit Types (h : heap) (l m : list Z) (s x u a b n e p : Z).

(** The two nodes on either side of a cut of the ring are neighbours. *)
Lemma ring_cut h s l1 l2 :
  ring h s (l1 ++ l2) → link h (default s (last l1)) (default s (head l2)).
Proof.
  intros Hr. destruct l1 as [|y l1 _] using rev_ind; simpl in *.
  - split; [by apply ring_head|].
    destruct l2 as [|c l2]; simpl; [by apply (ring_last _ _ [])|].
    apply (ring_prev_at h s [] c l2 Hr).
  - rewrite last_snoc. simpl. rewrite <-app_assoc in Hr. simpl in Hr.
    split; [by apply (ring_next_at h s l1 y l2)|].
    destruct l2 as [|c l2]; simpl.
    + rewrite (ring_last _ _ _ Hr). by rewrite last_snoc.
    + replace (l1 ++ y :: c :: l2) with ((l1 ++ [y]) ++ c :: l2) in Hr
        by (by rewrite <-app_assoc).
      rewrite (ring_prev_at h s _ c l2 Hr). by rewrite last_snoc.
Qed.

(** X18. [insert(prev, node)] links [node] after [prev] in the forward
    direction only: the traversal and [size()] then see [node] right after
    [prev], but the node that follows still names [prev] as its
    predecessor, so the heap is not the ring of the new order. *)
Theorem insert_forward_only fuel h s l1 l2 x :
  ring h s (l1 ++ l2) → x ∉ s :: l1 ++ l2 → is_Some (h !! x) →
  (length (l1 ++ l2) < fuel)%nat →
  ∃ h', insert (default s (last l1)) x h = Some (tt, h') ∧
        to_list fuel s h' = Some (l1 ++ x :: l2, h') ∧
        size fuel s h' = Some (Z.of_nat (length (l1 ++ l2)) + 1, h') ∧
        prevf h' x = Some (default s (last l1)) ∧
        prevf h' (default s (head l2)) = Some (default s (last l1)) ∧
        ¬ ring h' s (l1 ++ x :: l2).
Proof.
  intros Hr Hx Ha Hf.
  destruct (ring_cut _ _ _ _ Hr) as [En Ep].
  set (p := default s (last l1)) in *. set (n := default s (head l2)) in *.
  assert (p ∈ s :: l1 ++ l2) as Hp.
  { pose proof (last_mem s l1) as Hm. fold p in Hm.
    apply elem_of_cons in Hm as [->|Hm]; [by left|right].
    apply elem_of_app. by left. }
  assert (n ∈ s :: l1 ++ l2) as Hn.
  { pose proof (head_mem s l2) as Hm. fold n in Hm.
    apply elem_of_cons in Hm as [->|Hm]; [by left|right].
    apply elem_of_app. by right. }
  destruct (ring_mem _ _ _ _ Hr Hp) as [Hp0 Hap].
  destruct (ring_mem _ _ _ _ Hr Hn) as [Hn0 Han].
  destruct (ring_mem _ _ _ s Hr) as [Hs0 Has]; [by left|].
  assert (x ≠ nullptr) as Hx0 by (eapply wf_heap_nonnull; [apply Hr|done]).
  assert (x ≠ p) as Hxp by (intros ->; done).
  assert (x ≠ n) as Hxn by (intros ->; done).
  assert (x ≠ s) as Hxs by (intros ->; apply Hx; by left).
  set (h' := set_prev x p (set_next p x (set_next x n h))).
  assert (insert p x h = Some (tt, h')) as E.
  { unfold insert.
    rewrite (exec_load_next _ p n) by done.
    rewrite exec_store_next by done.
    rewrite exec_store_next by alloc.
    by rewrite run_store_prev by alloc. }
  assert (wf_heap h') as W' by (destruct Hr; subst h'; wf).
  assert (∀ u, u ≠ p → u ≠ x → nextf h' u = nextf h u) as Hfr.
  { intros u ? ?. subst h'. fields. }
  assert (nextf h' p = Some x) as Epx by (subst h'; fields).
  assert (nextf h' x = Some n) as Exn by (subst h'; fields).
  assert (prevf h' x = Some p) as Exp by (subst h'; fields).
  assert (prevf h' n = Some p) as Enp by (subst h'; fields).
  destruct Hr as (W & ND & Hseg).
  assert (fseg h' s (l1 ++ x :: l2) s) as Hfs.
  { apply seg_fseg in Hseg.
    assert (p ∉ l2 → fseg h p l2 s → fseg h' x l2 s) as Htail.
    { intros Hq Hs2. clearbody p. subst n.
      destruct l2 as [|c l2]; simpl in *; [done|].
      destruct Hs2 as [_ Hs2]. split; [done|].
      eapply fseg_frame; [|done]. intros u Hu. apply Hfr.
      - by intros ->.
      - intros ->. apply Hx. right. apply elem_of_app. by right. }
    apply fseg_app.
    destruct l1 as [|y l1 _] using rev_ind.
    - simpl in *. split; [done|].
      apply Htail; [|done]. subst p. simpl. intros ?. nodup.
    - rewrite <-app_assoc in Hseg. simpl in Hseg.
      apply fseg_app in Hseg as [Hs1 Hs2].
      assert (p = y) as Epy by (subst p; by rewrite last_snoc).
      rewrite <-app_assoc in ND. simpl in ND.
      split.
      + apply fseg_app. split; [|by rewrite <-Epy].
        eapply fseg_frame; [|done]. intros u Hu. apply Hfr.
        * rewrite Epy. intros ->. clear -ND Hu. nodup.
        * intros ->. apply Hx. clear -Hu. set_solver.
      + apply Htail; [|by rewrite Epy].
        rewrite Epy. intros ?. clear -ND H. nodup. }
  assert (∀ c, c ∈ l1 ++ x :: l2 → c ∈ l1 ++ l2 ∨ c = x) as Hmem.
  { intros c Hc. apply elem_of_app in Hc as [Hc|Hc].
    - left. apply elem_of_app. by left.
    - apply elem_of_cons in Hc as [->|Hc]; [by right|].
      left. apply elem_of_app. by right. }
  assert (∀ c, c ∈ l1 ++ x :: l2 → c ≠ s ∧ c ≠ nullptr) as Hc.
  { intros c Hc. destruct (Hmem c Hc) as [Hm| ->]; [|done].
    split.
    - intros ->. by apply (NoDup_cons_1_1 _ _ ND).
    - eapply (wf_heap_nonnull h); [done|]. eapply seg_alloc; [done|].
      right. apply elem_of_app. by left. }
  assert (length (l1 ++ x :: l2) = S (length (l1 ++ l2))) as El.
  { rewrite !length_app. simpl. lia. }
  assert (nextf h' s = Some (default s (head (l1 ++ x :: l2)))) as Ehd.
  { by apply (fseg_head _ _ _ _ Hfs). }
  exists h'. split; [done|]. split; [|split; [|split; [done|split; [done|]]]].
  - unfold to_list, begin, end_.
    rewrite (exec_load_next _ s _ _ Hs0 Ehd). unfold bind, ret.
    apply (iter_loop_fseg _ _ _ s); [done|done|lia].
  - unfold size. rewrite (exec_load_next _ s _ _ Hs0 Ehd).
    rewrite (size_loop_fseg _ _ _ s (l1 ++ x :: l2)); [|done|done|lia|lia|].
    + do 2 f_equal. lia.
    + assert (Z.of_nat (length (s :: l1 ++ x :: l2)) < size_t_modulus);
        [|simpl in *; lia].
      apply NoDup_bounded_length; [done| |].
      * apply NoDup_cons. split.
        { intros Hin. by destruct (Hc s Hin). }
        apply NoDup_cons in ND as [_ ND].
        apply NoDup_app in ND as (N1 & N2 & N3).
        apply NoDup_app. split; [done|]. split.
        -- intros c Hc1 Hc2. apply elem_of_cons in Hc2 as [->|Hc2].
           ++ apply Hx. right. apply elem_of_app. by left.
           ++ by apply (N2 c).
        -- apply NoDup_cons. split; [|done].
           intros ?. apply Hx. right. apply elem_of_app. by right.
      * intros c Hc'. apply W'. subst h'.
        repeat first [apply alloc_set_next_2 | apply alloc_set_prev_2].
        apply elem_of_cons in Hc' as [->|Hc']; [done|].
        destruct (Hmem c Hc') as [Hm| ->]; [|done].
        eapply seg_alloc; [done|]. right. apply elem_of_app. by left.
  - intros Hr'. destruct l2 as [|c l2].
    + pose proof (ring_last _ _ _ Hr') as E2. rewrite last_snoc in E2.
      subst n. simpl in *. congruence.
    + replace (l1 ++ x :: c :: l2) with ((l1 ++ [x]) ++ c :: l2) in Hr'
        by (by rewrite <-app_assoc).
      pose proof (ring_prev_at _ _ _ _ _ Hr') as E2.
      rewrite last_snoc in E2. subst n. simpl in *. congruence.
Qed.

End insert_move.

(** ** Moving a node *)

Section node_move.
Implicit Types (h : heap) (l m : list Z) (s x u a b n e p rhs : Z).

(** The heap after the move constructor has run. *)
Lemma node_move_run h p rhs rp rn :
  p ≠ nullptr → p ≠ rhs → h !! rhs = Some (Node rp rn) → rhs ≠ nullptr →
  ∃ h', Intrusive_list_node_move_ctor p rhs h = Some (tt, h') ∧
        h' !! p = Some (Node rp rn) ∧
        h' !! rhs = Some (Node nullptr nullptr) ∧
        ∀ u, u ≠ p → u ≠ rhs → h' !! u = h !! u.
Proof.
  intros Hp Hne E Hr0.
  set (h1 := <[p := Node rp rn]> h).
  assert (h1 !! rhs = Some (Node rp rn)) as E1.
  { subst h1. by rewrite lookup_insert_ne. }
  exists (set_next rhs nullptr (set_prev rhs nullptr h1)).
  split; [|split; [|split]].
  - unfold Intrusive_list_node_move_ctor. rewrite decide_False by done.
    rewrite (exec_load_prev _ rhs rp); [|done|unfold prevf; by rewrite E].
    rewrite (exec_load_next _ rhs rn); [|done|unfold nextf; by rewrite E].
    unfold bind at 1. fold h1.
    rewrite exec_store_prev; [|done|by rewrite E1].
    apply run_store_next; [done|]. apply alloc_set_prev_2. by rewrite E1.
  - unfold set_next, set_prev. rewrite !lookup_alter_ne by done.
    subst h1. by rewrite lookup_insert_eq.
  - unfold set_next, set_prev. rewrite !lookup_alter_eq. by rewrite E1.
  - intros u Hup Hur. unfold set_next, set_prev.
    rewrite !lookup_alter_ne by done. subst h1. by rewrite lookup_insert_ne.
Qed.

(** X19. Moving a node that is in no list is harmless: the new node takes
    over both pointers, the source is left with two null pointers, and a
    list that contains neither of them is the same ring as before. *)
Theorem node_move_outside_list h s l p rhs :
  ring h s l → rhs ∉ s :: l → is_Some (h !! rhs) →
  p ∉ s :: l → p ≠ rhs → 0 < p < size_t_modulus →
  ∃ h', Intrusive_list_node_move_ctor p rhs h = Some (tt, h') ∧
        h' !! p = h !! rhs ∧
        h' !! rhs = Some (Node nullptr nullptr) ∧
        ring h' s l.
Proof.
  intros Hr Hrhs [[rp rn] E] Hp Hne Hpr.
  assert (p ≠ nullptr) as Hp0 by (unfold nullptr; lia).
  assert (rhs ≠ nullptr) as Hr0.
  { eapply wf_heap_nonnull; [apply Hr|]. by rewrite E. }
  destruct (node_move_run h p rhs rp rn) as (h' & E' & E1 & E2 & Hfr);
    [done..|].
  exists h'. split; [done|]. split; [by rewrite E|]. split; [done|].
  apply (ring_frame h); [done| |].
  - intros u [nd Hu]. destruct (decide (u = p)) as [->|Hup]; [done|].
    destruct (decide (u = rhs)) as [->|Hur].
    + apply Hr. by rewrite E.
    + apply Hr. rewrite <-Hfr by done. by rewrite Hu.
  - intros u Hu. apply Hfr; by intros ->.
Qed.

(** X20. Moving a node that is a member of a list breaks the list: its
    neighbours still point at the moved-from node, whose pointers are now
    null, so neither the traversal nor [size()] ever returns, whatever the
    budget. *)
Theorem node_move_member_breaks h s l1 x l2 p :
  ring h s (l1 ++ x :: l2) → p ∉ s :: l1 ++ x :: l2 → p ≠ nullptr →
  ∃ h', Intrusive_list_node_move_ctor p x h = Some (tt, h') ∧
        nextf h' (default s (last l1)) = Some x ∧
        prevf h' (default s (head l2)) = Some x ∧
        h' !! x = Some (Node nullptr nullptr) ∧
        (∀ fuel, to_list fuel s h' = None) ∧
        (∀ fuel, size fuel s h' = None).
Proof.
  intros Hr Hp Hp0.
  assert (x ∈ s :: l1 ++ x :: l2) as Hx.
  { right. apply elem_of_app. right. by left. }
  destruct (ring_mem _ _ _ _ Hr Hx) as [Hx0 [[rp rn] E]].
  assert (p ≠ x) as Hpx by (by intros ->).
  destruct (node_move_run h p x rp rn) as (h' & E' & E1 & E2 & Hfr);
    [done..|].
  destruct (unlink_fields _ _ _ _ _ Hr) as ([Epn Epp] & [Enn Enp] & _).
  set (q := default s (last l1)) in *. set (n := default s (head l2)) in *.
  assert (x ≠ q).
  { intros Eq. eapply (ring_no_self _ _ _ x Hr); [by destruct l1|done|].
    congruence. }
  assert (x ≠ n).
  { intros Eq. eapply (ring_no_self _ _ _ x Hr); [by destruct l1|done|].
    congruence. }
  assert (q ≠ p).
  { intros Eq. apply Hp. rewrite <-Eq.
    pose proof (last_mem s l1) as Hm. fold q in Hm.
    apply elem_of_cons in Hm as [->|Hm]; [by left|right].
    apply elem_of_app. by left. }
  assert (n ≠ p).
  { intros Eq. apply Hp. rewrite <-Eq.
    pose proof (head_mem s l2) as Hm. fold n in Hm.
    apply elem_of_cons in Hm as [->|Hm]; [by left|right].
    apply elem_of_app. right. by right. }
  assert (s ≠ nullptr) as Hs0 by (eapply ring_nonnull; [done|by left]).
  assert (s ≠ p) as Hsp by (intros ->; apply Hp; by left).
  assert (s ≠ x) as Hsx.
  { destruct Hr as (_ & ND & _). intros ->. nodup. }
  assert (∀ u, u ≠ p → u ≠ x → nextf h' u = nextf h u) as HfrN.
  { intros u ? ?. unfold nextf. by rewrite Hfr. }
  assert (nextf h' x = Some nullptr) as Exn.
  { unfold nextf. by rewrite E2. }
  set (f := default s (head (l1 ++ x :: l2))).
  assert (nextf h' s = Some f) as Ehd.
  { rewrite HfrN by done. by apply ring_head. }
  assert (∃ r, f :: r = l1 ++ [x] ∧ fseg h' f r nullptr) as (r & Er & Hfs).
  { destruct Hr as (_ & ND & Hseg). apply seg_fseg in Hseg.
    apply fseg_app in Hseg as [Hs1 _].
    destruct l1 as [|c l1]; simpl in *.
    - exists []. by subst f.
    - exists (l1 ++ [x]). split; [by subst f|].
      destruct Hs1 as [_ Hs1]. apply fseg_app. split; [|done].
      eapply fseg_frame; [|done]. intros u Hu. apply HfrN.
      + intros ->. apply Hp. right.
        rewrite app_comm_cons. apply elem_of_app. by left.
      + intros ->. clear -ND Hu. nodup. }
  assert (∀ c, c ∈ f :: r → c ≠ s) as Hcs.
  { rewrite Er. intros c Hc ->. destruct Hr as (_ & ND & _).
    apply elem_of_app in Hc as [Hc|Hc].
    - clear -ND Hc. nodup.
    - apply list_elem_of_singleton in Hc. congruence. }
  exists h'. split; [done|].
  split; [rewrite HfrN by done; done|].
  split; [unfold prevf; rewrite Hfr by done; done|].
  split; [done|]. split.
  - intros fuel. unfold to_list, begin, end_.
    rewrite (exec_load_next _ s f) by done. unfold bind, ret.
    rewrite (iter_loop_null _ _ _ _ r); [done|done| | |done].
    + apply Hcs. by left.
    + intros c Hc. apply Hcs. by right.
  - intros fuel. unfold size.
    rewrite (exec_load_next _ s f) by done.
    apply (size_loop_null _ _ _ _ r); [done| | |done].
    + apply Hcs. by left.
    + intros c Hc. apply Hcs. by right.
Qed.

End node_move.

(** ** Linking a node twice *)

Section relink.
Implicit Types (h : heap) (l m : list Z) (s x u a b n e p : Z).

(** From inside a set of nodes that [m_next] never leaves and that does
    not hold the sentinel, the loops never reach the sentinel. *)
Lemma iter_loop_trapped fuel h e (C : list Z) a :
  (∀ c, c ∈ C → c ≠ e ∧ c ≠ nullptr ∧ ∃ c', nextf h c = Some c' ∧ c' ∈ C) →
  a ∈ C → iter_loop fuel e a h = None.
Proof.
  intros HC. revert a. induction fuel as [|fuel IH]; intros a Ha;
    destruct (HC a Ha) as (? & ? & c' & E & Hc'); simpl; unfold iter_neq;
    rewrite bool_decide_true by done; [done|].
  unfold iter_incr, next. rewrite (exec_load_next _ a c') by done.
  unfold bind. by rewrite IH.
Qed.

Lemma size_loop_trapped fuel h e (C : list Z) a count :
  (∀ c, c ∈ C → c ≠ e ∧ c ≠ nullptr ∧ ∃ c', nextf h c = Some c' ∧ c' ∈ C) →
  a ∈ C → size_loop fuel e a count h = None.
Proof.
  intros HC. revert a count.
  induction fuel as [|fuel IH]; intros a count Ha;
    destruct (HC a Ha) as (? & ? & c' & E & Hc'); simpl;
    rewrite decide_False by done; [done|].
  rewrite (exec_load_next _ a c') by done. by apply IH.
Qed.

(** X21. [push_front(x)] of a node that is already a member of the list
    breaks it: the sentinel then leads to [x] and [x] leads back to the
    former first node, so the walk from the front cycles among the nodes
    up to [x] and neither the traversal nor [size()] ever returns. *)
Theorem push_front_member_breaks h s l1 x l2 :
  ring h s (l1 ++ x :: l2) →
  ∃ h', push_front s x h = Some (tt, h') ∧
        nextf h' s = Some x ∧
        nextf h' x = Some (default x (head l1)) ∧
        (∀ fuel, to_list fuel s h' = None) ∧
        (∀ fuel, size fuel s h' = None).
Proof.
  intros Hr.
  set (f := default s (head (l1 ++ x :: l2))).
  assert (f = default x (head l1)) as Ef by (subst f; by destruct l1).
  pose proof (ring_head _ _ _ Hr) as Ehd. fold f in Ehd.
  assert (x ∈ s :: l1 ++ x :: l2) as Hx.
  { right. apply elem_of_app. right. by left. }
  assert (f ∈ s :: l1 ++ x :: l2) as Hf by apply head_mem.
  destruct (ring_mem _ _ _ s Hr) as [Hs0 Has]; [by left|].
  destruct (ring_mem _ _ _ _ Hr Hx) as [Hx0 Hax].
  destruct (ring_mem _ _ _ _ Hr Hf) as [Hf0 Haf].
  assert (x ≠ s) as Hxs.
  { destruct Hr as (_ & ND & _). intros ->. nodup. }
  set (h' := set_next s x (set_prev x s (set_next x f (set_prev f x h)))).
  assert (push_front s x h = Some (tt, h')) as E.
  { unfold push_front.
    rewrite (exec_load_next _ s f) by done.
    rewrite exec_store_prev by done.
    rewrite (exec_load_next _ s f) by fields.
    rewrite exec_store_next by alloc.
    rewrite exec_store_prev by alloc.
    by rewrite run_store_next by alloc. }
  assert (nextf h' s = Some x) as Esx by (subst h'; fields).
  assert (nextf h' x = Some f) as Exf by (subst h'; fields).
  assert (∀ u, u ≠ s → u ≠ x → nextf h' u = nextf h u) as Hfr.
  { intros u ? ?. subst h'. fields. }
  assert (∀ c, c ∈ l1 ++ [x] →
            c ≠ s ∧ c ≠ nullptr ∧ ∃ c', nextf h' c = Some c' ∧ c' ∈ l1 ++ [x])
    as HC.
  { intros c Hc.
    assert (c ∈ s :: l1 ++ x :: l2) as Hm.
    { right. apply elem_of_app in Hc as [Hc|Hc]; apply elem_of_app;
        [by left|right]. apply list_elem_of_singleton in Hc as ->. by left. }
    assert (c ≠ s) as Hcs.
    { destruct Hr as (_ & ND & _). intros ->.
      apply NoDup_cons_1_1 in ND. apply ND.
      apply elem_of_app in Hc as [Hc|Hc]; apply elem_of_app; [by left|right].
      apply list_elem_of_singleton in Hc as ->. by left. }
    split; [done|]. split; [by eapply ring_nonnull|].
    apply elem_of_app in Hc as [Hc|Hc].
    - apply list_elem_of_split in Hc as (k1 & k2 & ->).
      assert (c ≠ x) as Hcx.
      { destruct Hr as (_ & ND & _). intros ->.
        apply NoDup_cons in ND as [_ ND]. rewrite <-app_assoc in ND.
        clear -ND. nodup. }
      rewrite <-app_assoc in Hr. simpl in Hr.
      exists (default s (head (k2 ++ x :: l2))).
      split; [rewrite Hfr by done; by apply (ring_next_at h s k1)|].
      destruct k2; simpl; set_solver.
    - apply list_elem_of_singleton in Hc as ->. exists f. split; [done|].
      rewrite Ef. destruct l1; simpl; set_solver. }
  exists h'. split; [done|]. split; [done|]. split; [by rewrite <-Ef|].
  assert (x ∈ l1 ++ [x]) as Hxc by set_solver.
  split; intros fuel.
  - unfold to_list, begin, end_. rewrite (exec_load_next _ s x) by done.
    unfold bind, ret. by rewrite (iter_loop_trapped _ _ _ (l1 ++ [x])).
  - unfold size. rewrite (exec_load_next _ s x) by done.
    by apply (size_loop_trapped _ _ _ (l1 ++ [x])).
Qed.

End relink.

(** ** Instances of the further properties *)

Lemma front_back_ring_witness :
  front listL heap_three = Some (nodeA, heap_three) ∧
  back listL heap_three = Some (nodeC, heap_three).
Proof.
  destruct (front_back_ring heap_three listL [nodeA; nodeB; nodeC])
    as (E1 & E2 & _); [decide_true|].
  by split.
Defined.

Lemma adjacency_predicates_witness :
  ∃ ab ba,
    is_a_left_b nodeA nodeB heap_three = Some (ab, heap_three) ∧
    is_a_right_b nodeA nodeB heap_three = Some (ba, heap_three) ∧
    is_node_adj nodeA nodeB heap_three = Some (ab || ba, heap_three).
Proof.
  destruct (adjacency_predicates heap_three listL [nodeA; nodeB; nodeC]
              nodeA nodeB) as (ab & ba & E1 & _ & E2 & _ & E3 & _);
    [decide_true..|].
  by exists ab, ba.
Defined.

Lemma is_a_left_b_position_witness :
  ∃ r, is_a_left_b nodeA nodeB heap_three = Some (r, heap_three) ∧
       (r = true ↔ ∃ l1 l2, [nodeA; nodeB; nodeC] = l1 ++ nodeA :: nodeB :: l2).
Proof.
  apply (is_a_left_b_position heap_three listL); decide_true.
Defined.

Lemma push_front_spec_witness :
  ∃ h', push_front listL nodeD heap_three = Some (tt, h') ∧
        to_list 4 listL h' = Some ([nodeD; nodeA; nodeB; nodeC], h') ∧
        front listL h' = Some (nodeD, h').
Proof.
  destruct (push_front_spec 4 heap_three listL [nodeA; nodeB; nodeC] nodeD)
    as (h' & E1 & E2 & _ & E3 & _); [decide_true..|simpl; lia|].
  by exists h'.
Defined.

Lemma push_back_spec_witness :
  ∃ h', push_back listL nodeD heap_three = Some (tt, h') ∧
        to_list 4 listL h' = Some ([nodeA; nodeB; nodeC; nodeD], h') ∧
        back listL h' = Some (nodeD, h').
Proof.
  destruct (push_back_spec 4 heap_three listL [nodeA; nodeB; nodeC] nodeD)
    as (h' & E1 & E2 & _ & E3 & _); [decide_true..|simpl; lia|].
  by exists h'.
Defined.

Lemma pop_front_spec_witness :
  ∃ h', pop_front listL heap_three = Some (tt, h') ∧
        to_list 2 listL h' = Some ([nodeB; nodeC], h') ∧
        prevf h' nodeA = Some listL ∧ nextf h' nodeA = Some nodeB.
Proof.
  destruct (pop_front_spec 2 heap_three listL nodeA [nodeB; nodeC])
    as (h' & E1 & E2 & _ & E3 & E4 & _); [decide_true|simpl; lia|].
  by exists h'.
Defined.

Lemma pop_back_spec_witness :
  ∃ h', pop_back listL heap_three = Some (tt, h') ∧
        to_list 2 listL h' = Some ([nodeA; nodeB], h') ∧
        prevf h' nodeC = Some nodeB ∧ nextf h' nodeC = Some listL.
Proof.
  destruct (pop_back_spec 2 heap_three listL [nodeA; nodeB] nodeC)
    as (h' & E1 & E2 & _ & E3 & E4 & _); [decide_true|simpl; lia|].
  by exists h'.
Defined.

Lemma push_back_pop_back_witness :
  ∃ h1 h2, push_back listL nodeD heap_three = Some (tt, h1) ∧
           pop_back listL h1 = Some (tt, h2) ∧
           ring h2 listL [nodeA; nodeB; nodeC].
Proof.
  destruct (push_back_pop_back heap_three listL [nodeA; nodeB; nodeC] nodeD)
    as (h1 & h2 & E1 & E2 & Hr & _); [decide_true..|].
  by exists h1, h2.
Defined.

Lemma swap_spec_witness :
  ∃ h', swap nodeA nodeC heap_three = Some (tt, h') ∧
        to_list 3 listL h' =
          Some (transp nodeA nodeC <$> [nodeA; nodeB; nodeC], h').
Proof.
  destruct (swap_spec 3 heap_three listL [nodeA; nodeB; nodeC] nodeA nodeC)
    as (h' & E1 & E2 & _); [decide_true..|simpl; lia|].
  by exists h'.
Defined.

Lemma swap_comm_witness :
  ∃ h', swap nodeA nodeB heap_three = Some (tt, h') ∧
        swap nodeB nodeA heap_three = Some (tt, h').
Proof.
  apply (swap_comm heap_three listL [nodeA; nodeB; nodeC]); decide_true.
Defined.

Lemma erase_twice_witness :
  ∃ h', erase 3 listL nodeB heap_three = Some (true, h') ∧
        erase 3 listL nodeB h' = Some (false, h').
Proof.
  apply (erase_twice 3 heap_three listL [nodeA; nodeB; nodeC]);
    [decide_true..|simpl; lia].
Defined.

Lemma erase_front_is_pop_front_witness :
  ∃ h1 h2, erase 1 listL nodeA heap_three = Some (true, h1) ∧
           pop_front listL heap_three = Some (tt, h2) ∧
           ring h1 listL [nodeB; nodeC] ∧ ring h2 listL [nodeB; nodeC] ∧
           ∀ u, u ≠ nodeA → h1 !! u = h2 !! u.
Proof.
  apply (erase_front_is_pop_front 1 heap_three listL nodeA [nodeB; nodeC]);
    [decide_true|lia].
Defined.

Lemma erase_back_is_pop_back_witness :
  ∃ h1 h2, erase 3 listL nodeC heap_three = Some (true, h1) ∧
           pop_back listL heap_three = Some (tt, h2) ∧
           ring h1 listL [nodeA; nodeB] ∧ ring h2 listL [nodeA; nodeB] ∧
           ∀ u, u ≠ nodeC → h1 !! u = h2 !! u.
Proof.
  apply (erase_back_is_pop_back 3 heap_three listL [nodeA; nodeB] nodeC);
    [decide_true|simpl; lia].
Defined.

Lemma ctor_empty_witness :
  ∃ h', Intrusive_list_ctor listL heap_ABC = Some (tt, h') ∧
        empty listL h' = Some (true, h') ∧
        size 0 listL h' = Some (0, h') ∧
        front listL h' = Some (nullptr, h').
Proof.
  destruct (ctor_empty 0 heap_ABC listL)
    as (h' & E1 & E2 & E3 & _ & E4 & _); [decide_true|by vm_compute|].
  by exists h'.
Defined.

Lemma to_list_rev_ring_witness :
  to_list_rev 3 listL heap_three =
  Some (reverse [nodeA; nodeB; nodeC], heap_three).
Proof.
  apply to_list_rev_ring; [decide_true|simpl; lia].
Defined.

Lemma unlink_spec_witness :
  ∃ p n h', unlink listL nodeB heap_three = Some (p, h') ∧
            p = nodeA ∧ n = nodeC ∧ link h' p n.
Proof.
  destruct (unlink_spec heap_three listL [nodeA] nodeB [nodeC])
    as (p & n & h' & E & -> & -> & _ & _ & L & _); [decide_true|].
  by exists nodeA, nodeC, h'.
Defined.

Lemma lists_independent_witness :
  ∃ h', exec_op 2 listL (PushBack nodeD) heap_two_lists = Some (tt, h') ∧
        ring h' listL [nodeA; nodeB; nodeD] ∧ ring h' listM [nodeC].
Proof.
  destruct (lists_independent 2 heap_two_lists listL [nodeA; nodeB]
              listM [nodeC] (PushBack nodeD))
    as (h' & E & Hr1 & Hr2 & _);
    [decide_true|decide_true| |decide_true|decide_true|simpl; lia|].
  - apply Forall_forall. decide_true.
  - by exists h'.
Defined.

Lemma insert_forward_only_witness :
  ∃ h', insert nodeA nodeD heap_three = Some (tt, h') ∧
        to_list 4 listL h' = Some ([nodeA; nodeD; nodeB; nodeC], h') ∧
        prevf h' nodeB = Some nodeA.
Proof.
  destruct (insert_forward_only 4 heap_three listL [nodeA] [nodeB; nodeC]
              nodeD) as (h' & E1 & E2 & _ & _ & E3 & _);
    [decide_true..|simpl; lia|].
  by exists h'.
Defined.

Lemma node_move_outside_list_witness :
  ∃ h', Intrusive_list_node_move_ctor nodeE nodeD heap_three = Some (tt, h') ∧
        h' !! nodeE = heap_three !! nodeD ∧
        ring h' listL [nodeA; nodeB; nodeC].
Proof.
  destruct (node_move_outside_list heap_three listL [nodeA; nodeB; nodeC]
              nodeE nodeD) as (h' & E1 & E2 & _ & Hr);
    [decide_true..|by vm_compute|].
  by exists h'.
Defined.

Lemma node_move_member_breaks_witness :
  ∃ h', Intrusive_list_node_move_ctor nodeE nodeB heap_three = Some (tt, h') ∧
        nextf h' nodeA = Some nodeB ∧
        (∀ fuel, to_list fuel listL h' = None).
Proof.
  destruct (node_move_member_breaks heap_three listL [nodeA] nodeB [nodeC]
              nodeE) as (h' & E1 & E2 & _ & _ & E3 & _);
    [decide_true..|].
  by exists h'.
Defined.

Lemma push_front_member_breaks_witness :
  ∃ h', push_front listL nodeB heap_three = Some (tt, h') ∧
        nextf h' listL = Some nodeB ∧ nextf h' nodeB = Some nodeA ∧
        (∀ fuel, to_list fuel listL h' = None).
Proof.
  destruct (push_front_member_breaks heap_three listL [nodeA] nodeB [nodeC])
    as (h' & E1 & E2 & E3 & E4 & _); [decide_true|].
  by exists h'.
Defined.
